(** * rayopt.system: the [System] class, embedded over an explicit object store

    The development follows [src/rayopt/system.py].  Python objects are
    mutable and shared by reference, so [System] objects, the [Object], the
    [Image] and the chain [Element]s live in stores indexed by locations;
    a method that mutates [self] becomes a store transformer.  References
    held by a live Python object never dangle, hence the stores are total
    functions on locations.

    Numbers are IEEE binary64 values ([numpy.float64] and Python [float]),
    rendered as Rocq's primitive floats.

    The element layer ([rayopt.elements]), the root finders of
    [scipy.optimize] and [ParaxialTrace] are not part of this file of the
    repository: they enter as the capabilities of the classes [ElementLayer],
    [RootFinders] and [TraceLayer].  [system.py] tests [isinstance(e, Aperture)]
    although it imports only [Element], [Object] and [Image] from the element
    layer and defines no [Aperture] of its own: the name is unbound in the
    module, and evaluating it raises [NameError]. *)

From Stdlib Require Import PrimFloat String FunctionalExtensionality.
From stdpp Require Import base functions list.

Set Warnings "-inexact-float,-register-all".

(** ** Exceptions and results *)

Inductive exn : Type :=
  | AssertionError
  | IndexError
  | AttributeError
  | TypeError
  | ValueError
  | NameError
  | SolverError.

Inductive res (A : Type) : Type :=
  | Ok (a : A)
  | Raise (e : exn).
Arguments Ok {A} a.
Arguments Raise {A} e.

Definition res_bind {A B : Type} (r : res A) (k : A -> res B) : res B :=
  match r with
  | Ok a => k a
  | Raise e => Raise e
  end.

(** ** Data model *)

Definition loc : Type := nat.
Definition vec3 : Type := (float * float * float)%type.

Record Material : Type := mkMaterial {
  mname : string;
  nd : float;
  vd : float;
  solid : bool
}.

(** The class of a chain element object: an aperture of the element layer,
    or any other element. *)
Inductive ElementClass : Type :=
  | Surface
  | Aperture.

Definition class_eqb (a b : ElementClass) : bool :=
  match a, b with
  | Surface, Surface | Aperture, Aperture => true
  | _, _ => false
  end.

(** A chain element.  [material] is [None] for an element without the
    attribute ([hasattr(e, "material")] is false). *)
Record Element : Type := mkElement {
  cls : ElementClass;
  origin : vec3;
  radius : float;
  curvature : float;
  material : option Material
}.

Record Object : Type := mkObject {
  object_material : Material;
  object_radius : float;
  field_angle : float
}.

Record Image : Type := mkImage {
  image_origin : vec3;
  image_radius : float
}.

Record Rays : Type := mkRays {
  wavelength : float;
  ray_height : float * float;
  positions : list vec3;
  angles : list vec3;
  end_positions : list vec3
}.

(** [System]: the trait attributes of the class.  [elements] is the list
    owned by the system; its entries are references to element objects. *)
Record System : Type := mkSystem {
  name : string;
  wavelengths : list float;
  heights : list (float * float);
  temperature : float;
  scale : float;
  object : loc;
  elements : list loc;
  image : loc
}.

Record Heap : Type := mkHeap {
  systems : loc -> System;
  objects : loc -> Object;
  elems : loc -> Element;
  images : loc -> Image
}.

(** Whether an element object is an instance of the element layer's
    aperture class. *)
Definition Aperture_typed (e : Element) : bool := class_eqb (cls e) Aperture.

(** The global name [Aperture] as the functions of [system.py] find it.  The
    module binds [np], the traits, [newton], [fsolve], [Element], [Object],
    [Image], [Rays], [ParaxialTrace] and [System]; nothing binds [Aperture],
    so the lookup raises [NameError]. *)
Definition lookup_Aperture : res ElementClass := Raise NameError.

(** [isinstance(e, Aperture)] on a chain element: the name is looked up when
    the call is evaluated, then the class of [e] is tested. *)
Definition isinstance_Aperture (e : Element) : res bool :=
  res_bind lookup_Aperture (fun c => Ok (class_eqb (cls e) c)).

(** Attribute assignments. *)

Definition set_material (m : Material) (e : Element) : Element :=
  mkElement (cls e) (origin e) (radius e) (curvature e) (Some m).

Definition set_origin (d : vec3) (e : Element) : Element :=
  mkElement (cls e) d (radius e) (curvature e) (material e).

Definition set_object_material (m : Material) (o : Object) : Object :=
  mkObject m (object_radius o) (field_angle o).

Definition set_image_origin (d : vec3) (i : Image) : Image :=
  mkImage d (image_radius i).

Definition set_elements (es : list loc) (s : System) : System :=
  mkSystem (name s) (wavelengths s) (heights s) (temperature s) (scale s)
           (object s) es (image s).

(** ** The element layer *)

(** What [system.py] calls on the objects of [rayopt.elements]:
    [e.revert()], [b.propagate(rays)] (returning the rays of the segment that
    ends on [b] and the rays leaving [b]) and [object.rays_to_height]. *)

Inductive node : Type :=
  | ObjectRef (l : loc)
  | ElementRef (l : loc)
  | ImageRef (l : loc).

Class ElementLayer : Type := {
  element_revert : Element -> Element;
  element_propagate : Heap -> node -> Rays -> Rays * Rays;
  rays_to_height : Object -> float * float -> float * float ->
                   list vec3 * list vec3
}.

(** ** [System.__add__] *)

(** [self.elements += other.elements; return self]: the list of [self] is
    extended in place and the reference [self] is returned. *)
Definition __add__ (h : Heap) (self other : loc) : Heap * loc :=
  let extended := elements (systems h self) ++ elements (systems h other) in
  (mkHeap (alter (set_elements extended) self (systems h))
          (objects h) (elems h) (images h),
   self).

(** [(S1 + S2) + S3] and [S1 + (S2 + S3)], each from the same store. *)
Definition add_left (h : Heap) (s1 s2 s3 : loc) : Heap * loc :=
  let '(h1, r) := __add__ h s1 s2 in __add__ h1 r s3.

Definition add_right (h : Heap) (s1 s2 s3 : loc) : Heap * loc :=
  let '(h1, r) := __add__ h s2 s3 in __add__ h1 s1 r.

(** ** [System.revert] *)

Section Revert.
Context `{EL : ElementLayer}.

(** [for e in self.elements: if hasattr(e, "material"):
      m, e.material = e.material, m] *)
Fixpoint revert_materials (st : loc -> Element) (m : Material)
         (es : list loc) : (loc -> Element) * Material :=
  match es with
  | [] => (st, m)
  | e :: es' =>
      match material (st e) with
      | Some me => revert_materials (alter (set_material m) e st) me es'
      | None => revert_materials st m es'
      end
  end.

(** [for e in self.elements: e.revert(); d, e.origin = e.origin, d] *)
Fixpoint revert_origins (st : loc -> Element) (d : vec3)
         (es : list loc) : (loc -> Element) * vec3 :=
  match es with
  | [] => (st, d)
  | e :: es' =>
      let st1 := alter element_revert e st in
      let d' := origin (st1 e) in
      revert_origins (alter (set_origin d) e st1) d' es'
  end.

(** [revert], statement by statement:
      [m = self.object.material]
      [self.object.material = self.elements[-1].material]
      the loop over the materials
      [d = self.image.origin]
      [self.image.origin = self.elements[0].origin]
      [self.elements.reverse()]
      the loop over the origins, on the reversed list.
    [self.elements[-1]] raises [IndexError] on an empty list and [.material]
    raises [AttributeError] on an element without the attribute; both happen
    before anything is assigned, so a raising call leaves the store as it
    was. *)
Definition revert (h : Heap) (self : loc) : res Heap :=
  let s := systems h self in
  let m := object_material (objects h (object s)) in
  match last (elements s) with
  | None => Raise IndexError
  | Some e_last =>
      match material (elems h e_last) with
      | None => Raise AttributeError
      | Some m_last =>
          let objects1 :=
            alter (set_object_material m_last) (object s) (objects h) in
          let '(elems1, _) := revert_materials (elems h) m (elements s) in
          let d := image_origin (images h (image s)) in
          match head (elements s) with
          | None => Raise IndexError
          | Some e_first =>
              let images1 :=
                alter (set_image_origin (origin (elems1 e_first)))
                      (image s) (images h) in
              let reversed := reverse (elements s) in
              let systems1 :=
                alter (set_elements reversed) self (systems h) in
              let '(elems2, _) := revert_origins elems1 d reversed in
              Ok (mkHeap systems1 objects1 elems2 images1)
          end
      end
  end.

End Revert.

(** The two loops of [revert] seen on the list of the values they move: the
    value carried in ([m], [d]) takes the first occupied slot, every value
    moves to the next occupied slot and the last one is carried out.  Slots
    of elements without the attribute are [None] and are skipped. *)
Fixpoint shift {A : Type} (m : A) (l : list (option A))
  : list (option A) * A :=
  match l with
  | [] => ([], m)
  | None :: l' => let '(r, m') := shift m l' in (None :: r, m')
  | Some a :: l' => let '(r, m') := shift a l' in (Some m :: r, m')
  end.

(** What [revert] is about: the materials and the origins along the chain
    of a system, the material of its object, the origin of its image. *)
Definition chain_materials (h : Heap) (self : loc) : list (option Material) :=
  (fun e => material (elems h e)) <$> elements (systems h self).

Definition chain_origins (h : Heap) (self : loc) : list (option vec3) :=
  (fun e => Some (origin (elems h e))) <$> elements (systems h self).

Definition chain_object_material (h : Heap) (self : loc) : Material :=
  object_material (objects h (object (systems h self))).

Definition chain_image_origin (h : Heap) (self : loc) : vec3 :=
  image_origin (images h (image (systems h self))).

(** [S.revert(); S.revert()] *)
Definition revert_twice `{EL : ElementLayer} (h : Heap) (self : loc)
  : res Heap :=
  res_bind (revert h self) (fun h1 => revert h1 self).

(** ** [System.propagate], [propagate_through], [height_at_aperture] *)

Section Propagation.
Context `{EL : ElementLayer}.

(** The body of the generator, as the list of the pairs it yields.
    [b] holds the loop variable [b] as bound so far; the trailing
    [yield b, rays] reads it.  [zip] always has at least the pair made of
    the object and the first [b], so the [None] case is never reached from
    [propagate] (Python would find [b] unbound there). *)
Fixpoint propagate_loop (h : Heap) (pairs : list (node * node))
         (b : option node) (rays : Rays) : list (node * Rays) :=
  match pairs with
  | [] =>
      match b with
      | Some b' => [(b', rays)]
      | None => []
      end
  | (a, b') :: rest =>
      let '(a_rays, rays') := element_propagate h b' rays in
      (a, a_rays) :: propagate_loop h rest (Some b') rays'
  end.

Definition propagate (h : Heap) (self : loc) (rays : Rays)
  : list (node * Rays) :=
  let s := systems h self in
  let es := ElementRef <$> elements s in
  propagate_loop h
    (zip (ObjectRef (object s) :: es) (es ++ [ImageRef (image s)]))
    None rays.

(** [for element, rays in self.propagate(rays): pass; return rays] *)
Definition propagate_through (h : Heap) (self : loc) (rays : Rays) : Rays :=
  fold_left (fun (_ : Rays) (p : node * Rays) => snd p)
            (propagate h self rays) rays.

(** [isinstance(element, Aperture)] on a yielded element: the name is looked
    up first; the object is an [Object] and the image an [Image], neither is
    of an element class. *)
Definition node_isinstance_Aperture (h : Heap) (n : node) : res bool :=
  res_bind lookup_Aperture
    (fun c => Ok match n with
                 | ElementRef l => class_eqb (cls (elems h l)) c
                 | ObjectRef _ | ImageRef _ => false
                 end).

Definition node_radius (h : Heap) (n : node) : float :=
  match n with
  | ObjectRef l => object_radius (objects h l)
  | ElementRef l => radius (elems h l)
  | ImageRef l => image_radius (images h l)
  end.

(** [in_rays.end_positions[...,(0,1)]/element.radius] *)
Definition normalized_xy (r : float) (in_rays : Rays)
  : list (float * float) :=
  map (fun p : vec3 => let '(x, y, _) := p in ((x / r)%float, (y / r)%float))
      (end_positions in_rays).

(** The loop of [height_at_aperture]: the test is evaluated on every yielded
    pair, the first one included; running off the end of the sequence returns
    [None]. *)
Fixpoint height_at_aperture_loop (h : Heap) (seq : list (node * Rays))
  : res (option (list (float * float))) :=
  match seq with
  | [] => Ok None
  | (element, in_rays) :: rest =>
      match node_isinstance_Aperture h element with
      | Raise e => Raise e
      | Ok true => Ok (Some (normalized_xy (node_radius h element) in_rays))
      | Ok false => height_at_aperture_loop h rest
      end
  end.

Definition height_at_aperture (h : Heap) (self : loc) (rays : Rays)
  : res (option (list (float * float))) :=
  height_at_aperture_loop h (propagate h self rays).

End Propagation.

(** ** numpy values met in [chief_and_marginal] *)

Inductive ndarray : Type :=
  | Scalar (x : float)
  | Vector (xs : list float).

(** Elementwise arithmetic with broadcasting of scalars and of arrays of
    length one. *)
Definition broadcast (op : float -> float -> float) (a b : ndarray)
  : res ndarray :=
  match a, b with
  | Scalar x, Scalar y => Ok (Scalar (op x y))
  | Scalar x, Vector ys => Ok (Vector (map (op x) ys))
  | Vector xs, Scalar y => Ok (Vector (map (fun x => op x y) xs))
  | Vector xs, Vector ys =>
      if Nat.eqb (length xs) (length ys) then Ok (Vector (zip_with op xs ys))
      else match xs, ys with
           | [x], _ => Ok (Vector (map (op x) ys))
           | _, [y] => Ok (Vector (map (fun x => op x y) xs))
           | _, _ => Raise ValueError
           end
  end.

Definition nd_add : ndarray -> ndarray -> res ndarray := broadcast PrimFloat.add.
Definition nd_sub : ndarray -> ndarray -> res ndarray := broadcast PrimFloat.sub.
Definition nd_mul : ndarray -> ndarray -> res ndarray := broadcast PrimFloat.mul.
Definition nd_div : ndarray -> ndarray -> res ndarray := broadcast PrimFloat.div.

(** [a, b = v]: iterating an array yields its scalar entries. *)
Definition unpack2 (v : ndarray) : res (ndarray * ndarray) :=
  match v with
  | Vector [a; b] => Ok (Scalar a, Scalar b)
  | Vector _ => Raise ValueError
  | Scalar _ => Raise TypeError
  end.

(** [v[i]] *)
Definition getitem (v : ndarray) (i : nat) : res float :=
  match v with
  | Vector xs =>
      match xs !! i with
      | Some x => Ok x
      | None => Raise IndexError
      end
  | Scalar _ => Raise IndexError
  end.

(** ** The state threaded through ray aiming *)

(** [chief_and_marginal] works on the caller's [rays] object, which
    [stop_for_pos] overwrites at each evaluation.  [calls] records the
    arguments of the evaluations of [stop_for_pos], oldest first. *)
Record AimState : Type := mkAimState {
  st_rays : Rays;
  calls : list (float * float)
}.

Definition M (A : Type) : Type := AimState -> res A * AimState.

Definition ret {A : Type} (a : A) : M A := fun st => (Ok a, st).

Definition lift {A : Type} (r : res A) : M A := fun st => (r, st).

Definition bind {A B : Type} (c : M A) (k : A -> M B) : M B :=
  fun st =>
    match c st with
    | (Ok a, st') => k a st'
    | (Raise e, st') => (Raise e, st')
    end.

Notation "'let*' x ':=' c 'in' k" := (bind c (fun x => k))
  (at level 10, x pattern, c at level 100, k at level 200).

(** The root finders of [scipy.optimize]: [fsolve(func, x0, xtol, epsfcn)]
    and [newton(func, x0)].  The function they are given runs in [M]: each
    evaluation overwrites [rays]. *)
Class RootFinders : Type := {
  fsolve : (ndarray -> M ndarray) -> ndarray -> float -> float -> M ndarray;
  newton : (float -> M float) -> float -> M float
}.

(** ** [System.chief_and_marginal] *)

Definition d : float := 1e-3%float.

Definition set_positions_angles (p a : list vec3) (r : Rays) : Rays :=
  mkRays (wavelength r) (ray_height r) p a (end_positions r).

Section Aiming.
Context `{EL : ElementLayer} `{RF : RootFinders}.

(** [sum(1 for e in self.elements if isinstance(e, Aperture))]: the test is
    evaluated for each element in turn. *)
Fixpoint count_Aperture (h : Heap) (es : list loc) : res nat :=
  match es with
  | [] => Ok 0
  | e :: es' =>
      res_bind (isinstance_Aperture (elems h e))
        (fun b => res_bind (count_Aperture h es')
                    (fun n => Ok (if b : bool then 1 + n else n)))
  end.

(** The closure [stop_for_pos(x, y)]:
    [rays.positions, rays.angles = self.object.rays_to_height((x,y), height)]
    then [self.height_at_aperture(rays)[0]]. *)
Definition stop_for_pos (h : Heap) (self : loc) (height : float * float)
           (x y : float) : M ndarray :=
  fun st =>
    let '(p, a) :=
      rays_to_height (objects h (object (systems h self))) (x, y) height in
    let rays := set_positions_angles p a (st_rays st) in
    let st' := mkAimState rays (calls st ++ [(x, y)]) in
    match height_at_aperture h self rays with
    | Raise e => (Raise e, st')
    | Ok None => (Raise TypeError, st')
    | Ok (Some []) => (Raise IndexError, st')
    | Ok (Some ((u, v) :: _)) => (Ok (Vector [u; v]), st')
    end.

(** [stop_for_pos( *p )] *)
Definition stop_for_pos_star (h : Heap) (self : loc)
           (height : float * float) (p : ndarray) : M ndarray :=
  match p with
  | Vector [x; y] => stop_for_pos h self height x y
  | _ => lift (Raise TypeError)
  end.

(** The lambdas handed to [newton]:
    [lambda x: stop_for_pos(x, chief[1])[0] + shift] and
    [lambda y: stop_for_pos(chief[0], y)[1] + shift], where the source
    writes [-1] or [+1] for the shift. *)
Definition residual_x (h : Heap) (self : loc) (height : float * float)
           (chief : ndarray) (shift : float -> float) (x : float)
  : M float :=
  let* c1 := lift (getitem chief 1) in
  let* v := stop_for_pos h self height x c1 in
  let* v0 := lift (getitem v 0) in
  ret (shift v0).

Definition residual_y (h : Heap) (self : loc) (height : float * float)
           (chief : ndarray) (shift : float -> float) (y : float)
  : M float :=
  let* c0 := lift (getitem chief 0) in
  let* v := stop_for_pos h self height c0 y in
  let* v1 := lift (getitem v 1) in
  ret (shift v1).

Definition minus_one (v : float) : float := (v - 1)%float.
Definition plus_one (v : float) : float := (v + 1)%float.

(** The block [if paraxial_chief: ... else: ...]. *)
Definition chief_ray (h : Heap) (self : loc) (height : float * float)
           (paraxial_chief : bool) : M ndarray :=
  if paraxial_chief then
    let* d0 := stop_for_pos h self height 0%float 0%float in
    let* num := lift (nd_mul (Scalar (- d)%float) d0) in
    let* fd := stop_for_pos h self height d d in
    let* den := lift (nd_sub fd d0) in
    lift (nd_div num den)
  else
    fsolve (stop_for_pos_star h self height)
           (Vector [0%float; 0%float]) 1e-2%float d.

(** The block [if paraxial_marginal: ... else: ...], giving
    [(marg_px, marg_nx, marg_py, marg_ny)]. *)
Definition marginal_rays (h : Heap) (self : loc) (height : float * float)
           (paraxial_marginal : bool) (chief : ndarray)
  : M (ndarray * ndarray * ndarray * ndarray) :=
  if paraxial_marginal then
    let* cd := lift (nd_add chief (Scalar d)) in
    let* f1 := stop_for_pos_star h self height cd in
    let* f0 := stop_for_pos_star h self height chief in
    let* den := lift (nd_sub f1 f0) in
    let* dmarg := lift (nd_div (Scalar d) den) in
    let* plus := lift (nd_add chief dmarg) in
    let* pp := lift (unpack2 plus) in
    let* minus := lift (nd_sub chief dmarg) in
    let* nn := lift (unpack2 minus) in
    ret (fst pp, fst nn, snd pp, snd nn)
  else
    let* x0 := lift (getitem chief 0) in
    let* marg_px :=
      newton (residual_x h self height chief minus_one) (x0 + d)%float in
    let* x0' := lift (getitem chief 0) in
    let* marg_nx :=
      newton (residual_x h self height chief plus_one) (x0' - d)%float in
    let* y0 := lift (getitem chief 1) in
    let* marg_py :=
      newton (residual_y h self height chief minus_one) (y0 + d)%float in
    let* y0' := lift (getitem chief 1) in
    let* marg_ny :=
      newton (residual_y h self height chief plus_one) (y0' - d)%float in
    ret (Scalar marg_px, Scalar marg_nx, Scalar marg_py, Scalar marg_ny).

Definition chief_and_marginal (h : Heap) (self : loc)
           (height : float * float)
           (paraxial_chief paraxial_marginal : bool)
  : M (ndarray * (ndarray * ndarray * ndarray * ndarray)) :=
  let* n := lift (count_Aperture h (elements (systems h self))) in
  if negb (Nat.eqb n 1)
  then lift (Raise AssertionError)
  else
    let* chief := chief_ray h self height paraxial_chief in
    let* margs := marginal_rays h self height paraxial_marginal chief in
    ret (chief, margs).

End Aiming.

(** ** The objective function of [System.optimize] *)

(** [ParaxialTrace(self)], from [rayopt.raytrace]. *)
Class TraceLayer : Type := {
  ParaxialTraceT : Type;
  ParaxialTrace : Heap -> loc -> ParaxialTraceT
}.

(** An optimisation parameter: [get_value(system)], [set_value(system, v)]
    (which mutates the system), [bounds] and [scale]. *)
Record OptParameter : Type := mkOptParameter {
  get_value : Heap -> loc -> float;
  set_value : Heap -> loc -> float -> Heap;
  bounds : float * float;
  parameter_scale : float
}.

(** What a demerit returns before [np.array(...)]: a number or a nesting
    of sequences of numbers. *)
Inductive nested : Type :=
  | Num (x : float)
  | Seq (l : list nested).

(** The numbers of a nesting, in row-major order. *)
Fixpoint leaves (v : nested) : list float :=
  match v with
  | Num x => [x]
  | Seq l => (fix go (l : list nested) : list float :=
                match l with
                | [] => []
                | v' :: l' => leaves v' ++ go l'
                end) l
  end.

(** The shape [np.array] gives a nesting: [()] for a number, the length
    followed by the common shape of the entries for a sequence; [None] when
    the entries of a sequence differ in shape (a ragged nesting), which is no
    array of numbers. *)
Fixpoint nested_shape (v : nested) : option (list nat) :=
  match v with
  | Num _ => Some []
  | Seq l =>
      match (fix go (l : list nested) : list (option (list nat)) :=
               match l with
               | [] => []
               | v' :: l' => nested_shape v' :: go l'
               end) l with
      | [] => Some [0]
      | None :: _ => None
      | Some s :: rest =>
          if forallb (fun s' => bool_decide (s' = Some s)) rest
          then Some (length l :: s)
          else None
      end
  end.

(** [np.array(v).reshape((-1,))]: the entries in row-major order; a ragged
    nesting is refused ([ValueError]: the requested array has an inhomogeneous
    shape). *)
Definition reshape_flat (v : nested) : res (list float) :=
  match nested_shape v with
  | Some _ => Ok (leaves v)
  | None => Raise ValueError
  end.

(** A list comprehension whose entries may raise: they are evaluated in
    order and the first exception ends the evaluation. *)
Fixpoint res_list {A : Type} (l : list (res A)) : res (list A) :=
  match l with
  | [] => Ok []
  | r :: l' =>
      res_bind r (fun a => res_bind (res_list l') (fun al => Ok (a :: al)))
  end.

(** [np.concatenate]: refuses an empty sequence of arrays. *)
Definition np_concatenate (arrays : list (list float)) : res (list float) :=
  match arrays with
  | [] => Raise ValueError
  | _ :: _ => Ok (concat arrays)
  end.

(** [enumerate] *)
Definition enumerate {A : Type} (l : list A) : list (nat * A) :=
  imap (fun i a => (i, a)) l.

Section Optimize.
Context `{EL : ElementLayer} `{TL : TraceLayer}.

Record Demerit : Type := mkDemerit {
  demerit_call : Heap -> loc -> ParaxialTraceT -> list Rays -> nested;
  weight : float
}.

(** [for i,p in enumerate(parameters): p.set_value(self, x[i])] *)
Fixpoint write_parameters (h : Heap) (self : loc)
         (ips : list (nat * OptParameter)) (x : list float)
  : res unit * Heap :=
  match ips with
  | [] => (Ok tt, h)
  | (i, p) :: rest =>
      match x !! i with
      | None => (Raise IndexError, h)
      | Some xi => write_parameters (set_value p h self xi) self rest x
      end
  end.

Definition objective_function (h : Heap) (self : loc) (rays : list Rays)
           (parameters : list OptParameter) (demerits : list Demerit)
           (x : list float) : res (list float) * Heap :=
  match write_parameters h self (enumerate parameters) x with
  | (Raise e, h1) => (Raise e, h1)
  | (Ok _, h1) =>
      let p := ParaxialTrace h1 self in
      let r := map (fun ir => propagate_through h1 self ir) rays in
      let dd :=
        res_list
          (map (fun de =>
                  res_bind (reshape_flat (demerit_call de h1 self p r))
                    (fun a => Ok (map (fun v => (v * weight de)%float) a)))
               demerits) in
      (res_bind dd np_concatenate, h1)
  end.

(** The objective as section 4.3 of the specification words it: write
    the entries of [x] through the parameters' [set_value], recompute the
    paraxial trace, propagate every ray bundle, then concatenate the
    weighted flattened demerit outputs in demerit order. *)
Definition written_system (h : Heap) (self : loc)
           (parameters : list OptParameter) (x : list float) : Heap :=
  foldl (fun h' (px : OptParameter * float) =>
           set_value (fst px) h' self (snd px))
        h (zip parameters x).

Definition demerit_output (h : Heap) (self : loc) (rays : list Rays)
           (de : Demerit) : nested :=
  demerit_call de h self (ParaxialTrace h self)
               (propagate_through h self <$> rays).

Definition weighted_output (h : Heap) (self : loc) (rays : list Rays)
           (de : Demerit) : list float :=
  (fun v => (v * weight de)%float) <$> leaves (demerit_output h self rays de).

Definition spec_objective (h : Heap) (self : loc) (rays : list Rays)
           (parameters : list OptParameter) (demerits : list Demerit)
           (x : list float) : list float :=
  let h' := written_system h self parameters x in
  mjoin (weighted_output h' self rays <$> demerits).

End Optimize.

(** ** A small element layer and sample systems *)

(** A drift-only element layer: [revert] flips the sign of the curvature,
    [propagate] carries every ray along its direction over the axial offset
    of the element it runs to, and the object launches a single ray from the
    field point with direction [(x, y, 1)]. *)

Definition axial_offset (h : Heap) (b : node) : float :=
  match b with
  | ObjectRef _ => 0%float
  | ElementRef l => snd (origin (elems h l))
  | ImageRef l => snd (image_origin (images h l))
  end.

Definition drift (z : float) (p a : vec3) : vec3 :=
  let '(px, py, pz) := p in
  let '(ax, ay, _) := a in
  ((px + ax * z)%float, (py + ay * z)%float, (pz + z)%float).

Definition drift_propagate (h : Heap) (b : node) (rays : Rays) : Rays * Rays :=
  let ends := zip_with (drift (axial_offset h b)) (positions rays) (angles rays) in
  (mkRays (wavelength rays) (ray_height rays) (positions rays) (angles rays) ends,
   mkRays (wavelength rays) (ray_height rays) ends (angles rays) ends).

Definition flip_curvature (e : Element) : Element :=
  mkElement (cls e) (origin e) (radius e) (- curvature e)%float (material e).

Definition drift_layer : ElementLayer := {|
  element_revert := flip_curvature;
  element_propagate := drift_propagate;
  rays_to_height := fun _ xy height =>
    ([(fst height, snd height, 0%float)], [(fst xy, snd xy, 1%float)])
|}.

(** Root finders that evaluate the function once at the initial guess and
    return the guess. *)
Definition one_step_finders : RootFinders := {|
  fsolve := fun f x0 _ _ => let* _ := f x0 in ret x0;
  newton := fun f x0 => let* _ := f x0 in ret x0
|}.

Definition count_trace : TraceLayer := {|
  ParaxialTraceT := nat;
  ParaxialTrace := fun h self => length (elements (systems h self))
|}.

Definition air : Material := mkMaterial "air" 1%float 89.3%float false.
Definition crown : Material := mkMaterial "crown" 1.5168%float 64.17%float true.
Definition flint : Material := mkMaterial "flint" 1.62%float 36.37%float true.

Definition sample_object : Object := mkObject air infinity 0.1%float.
Definition sample_image : Image :=
  mkImage (0%float, 0%float, 20%float) 5%float.

(** Elements 0 and 2 are refracting surfaces, element 1 is the stop (it has
    no material), element 3 is a second stop. *)
Definition sample_elems (l : loc) : Element :=
  match l with
  | 0 => mkElement Surface (0%float, 0%float, 10%float) 4%float
                   0.05%float (Some crown)
  | 1 => mkElement Aperture (0%float, 0%float, 5%float) 2%float
                   0%float None
  | 2 => mkElement Surface (0%float, 0%float, 3%float) 4%float
                   (-0.02)%float (Some flint)
  | _ => mkElement Aperture (0%float, 0%float, 1%float) 1%float
                   0%float None
  end.

Definition sample_system (es : list loc) : System :=
  mkSystem "sample" [5.876e-7%float] [(0%float, 0%float)]
           21%float 1e-3%float 0 es 0.

(** A store whose system [0] has the chain [es]; system [1] holds element
    [2], every other system holds element [3]. *)
Definition sample_heap (es : list loc) : Heap :=
  mkHeap (fun l => match l with
                   | 0 => sample_system es
                   | 1 => sample_system [2]
                   | _ => sample_system [3]
                   end)
         (fun _ => sample_object)
         sample_elems
         (fun _ => sample_image).

(** Surface, stop, surface. *)
Definition triplet_heap : Heap := sample_heap [0; 1; 2].

(** A parameter that reads and writes the curvature of the first element of
    the chain, and a demerit returning the x and y end positions of every
    traced bundle. *)
Definition set_curvature (c : float) (e : Element) : Element :=
  mkElement (cls e) (origin e) (radius e) c (material e).

Definition first_curvature : OptParameter := {|
  get_value := fun h self =>
    curvature (elems h (hd 0 (elements (systems h self))));
  set_value := fun h self c =>
    mkHeap (systems h) (objects h)
           (alter (set_curvature c) (hd 0 (elements (systems h self)))
                  (elems h))
           (images h);
  bounds := ((-1)%float, 1%float);
  parameter_scale := 0.1%float
|}.

(** A parameter that reads and writes the curvature of the element at a
    given location. *)
Definition curvature_of (l : loc) : OptParameter := {|
  get_value := fun h _ => curvature (elems h l);
  set_value := fun h _ c =>
    mkHeap (systems h) (objects h) (alter (set_curvature c) l (elems h))
           (images h);
  bounds := ((-1)%float, 1%float);
  parameter_scale := 0.1%float
|}.

Definition spot_demerit : @Demerit count_trace := {|
  demerit_call := fun _ _ _ results =>
    Seq (map (fun r : Rays =>
                Seq (map (fun p : vec3 => Seq [Num (fst (fst p));
                                               Num (snd (fst p))])
                         (end_positions r)))
             results);
  weight := 2%float
|}.

(** A demerit returning two rows of different lengths. *)
Definition ragged_demerit : @Demerit count_trace := {|
  demerit_call := fun _ _ _ _ =>
    Seq [Seq [Num 1%float; Num 2%float]; Seq [Num 3%float]];
  weight := 2%float
|}.

Definition launched_rays : Rays :=
  mkRays 5.876e-7%float (1%float, 2%float)
         [(1%float, 2%float, 0%float)] [(0.01%float, 0.02%float, 1%float)] [].

Definition sample_rays : Rays :=
  mkRays 5.876e-7%float (1%float, 2%float) [] [] [].

Definition sample_state : AimState := mkAimState sample_rays [].

(** ** [System.propagate_paraxial], [height_at_aperture_paraxial] *)

(** The paraxial capabilities of the element layer:
    [e.propagate_paraxial(i, rays)] and [e.aberration3(i, rays)] work on the
    rays object in place, [rays.heights[i]] reads a row (or raises). *)
Class ParaxialLayer : Type := {
  ParaxialRays : Type;
  ParaxialHeight : Type;
  element_propagate_paraxial :
    Heap -> loc -> nat -> ParaxialRays -> ParaxialRays;
  element_aberration3 :
    Heap -> loc -> nat -> ParaxialRays -> ParaxialRays;
  image_propagate_paraxial :
    Heap -> loc -> nat -> ParaxialRays -> ParaxialRays;
  heights_getitem : ParaxialRays -> nat -> res ParaxialHeight
}.

Section Paraxial.
Context `{PL : ParaxialLayer}.

(** How [propagate_paraxial] ends: with the rays traced to the image, or with
    the loop variable [i] unbound when [self.image.propagate_paraxial(i+2,
    rays)] is reached (Python raises [UnboundLocalError]; the rays were not
    touched). *)
Inductive paraxial_outcome : Type :=
  | Traced (rays : ParaxialRays)
  | UnboundLocalError.

(** [for i,e in enumerate(self.elements):
      e.propagate_paraxial(i+1, rays); e.aberration3(i+1, rays)],
    keeping the last value bound to [i]. *)
Fixpoint propagate_paraxial_loop (h : Heap) (ies : list (nat * loc))
         (i : option nat) (rays : ParaxialRays) : option nat * ParaxialRays :=
  match ies with
  | [] => (i, rays)
  | (i', e) :: rest =>
      propagate_paraxial_loop h rest (Some i')
        (element_aberration3 h e (i' + 1)
           (element_propagate_paraxial h e (i' + 1) rays))
  end.

Definition propagate_paraxial (h : Heap) (self : loc) (rays : ParaxialRays)
  : paraxial_outcome :=
  let s := systems h self in
  match propagate_paraxial_loop h (enumerate (elements s)) None rays with
  | (Some i, rays') =>
      Traced (image_propagate_paraxial h (image s) (i + 2) rays')
  | (None, _) => UnboundLocalError
  end.

(** [for i,e in enumerate(self.elements):
      e.propagate_paraxial(i+1, rays)
      if isinstance(e, Aperture): return rays.heights[i+1]];
    the result is paired with the rays as the call leaves them. *)
Fixpoint height_at_aperture_paraxial_loop (h : Heap) (ies : list (nat * loc))
         (rays : ParaxialRays) : res (option ParaxialHeight) * ParaxialRays :=
  match ies with
  | [] => (Ok None, rays)
  | (i, e) :: rest =>
      let rays' := element_propagate_paraxial h e (i + 1) rays in
      match isinstance_Aperture (elems h e) with
      | Raise x => (Raise x, rays')
      | Ok true =>
          (res_bind (heights_getitem rays' (i + 1)) (fun v => Ok (Some v)),
           rays')
      | Ok false => height_at_aperture_paraxial_loop h rest rays'
      end
  end.

Definition height_at_aperture_paraxial (h : Heap) (self : loc)
           (rays : ParaxialRays) : res (option ParaxialHeight) * ParaxialRays :=
  height_at_aperture_paraxial_loop h (enumerate (elements (systems h self)))
                                   rays.

End Paraxial.

(** ** [System.get_ray_bundle] *)

(** [Rays(wavelength=..., height=...)] of [rayopt.raytrace] and
    [object.rays_for_point(height, chief, marginals, number)]. *)
Class BundleLayer : Type := {
  Rays_new : float -> float * float -> Rays;
  rays_for_point :
    Object -> float * float -> ndarray ->
    ndarray * ndarray * ndarray * ndarray -> nat -> list vec3 * list vec3
}.

Section Bundle.
Context `{EL : ElementLayer} `{RF : RootFinders} `{BL : BundleLayer}.

(** The result is paired with what [print c, m] wrote (nothing when the
    aiming raised). *)
Definition get_ray_bundle (h : Heap) (self : loc) (wavelength : float)
           (height : float * float) (number : nat)
           (paraxial_chief paraxial_marginal : bool)
  : res Rays * list (ndarray * (ndarray * ndarray * ndarray * ndarray)) :=
  let rays := Rays_new wavelength height in
  match chief_and_marginal h self height paraxial_chief paraxial_marginal
                           (mkAimState rays []) with
  | (Raise e, _) => (Raise e, [])
  | (Ok (c, m), st) =>
      let '(p, a) :=
        rays_for_point (objects h (object (systems h self)))
                       height c m number in
      (Ok (set_positions_angles p a (st_rays st)), [(c, m)])
  end.

End Bundle.

(** ** [System.optimize] *)

(** A constraint: [c(system)] gives an array, [c.equality] its kind. *)
Record Constraint : Type := mkConstraint {
  constraint_call : Heap -> loc -> list float;
  equality : bool
}.

(** What [optimize] hands to [openopt.NLP]: the objective, the start vector,
    the inequality ([c]) and equality ([h]) constraint functions or [None],
    the bounds and the differentiation steps.  The functions run on the
    system as they find it and may leave it changed.  (The tolerances and the
    evaluation caps are constants of the call.) *)
Record NLPProblem : Type := mkNLPProblem {
  nlp_objective : list float -> Heap -> res (list float) * Heap;
  nlp_x0 : list float;
  nlp_c : option (list float -> Heap -> res (list float));
  nlp_h : option (list float -> Heap -> res (list float));
  nlp_lb : list float;
  nlp_ub : list float;
  nlp_diffInt : list float
}.

(** [problem.solve(method)], giving [(res.xf, res.ff)]. *)
Class Solver : Type := {
  SolverValue : Type;
  NLP_solve :
    NLPProblem -> string -> Heap -> res (list float * SolverValue) * Heap
}.

Section OptimizeDriver.
Context `{EL : ElementLayer} `{TL : TraceLayer} `{SV : Solver}.

(** [np.concatenate([c(self) for c in cs])]; the argument [x] is not
    used. *)
Definition constraints_function (self : loc) (cs : list Constraint)
           (x : list float) (h : Heap) : res (list float) :=
  np_concatenate (map (fun c => constraint_call c h self) cs).

(** [cs and f or None] *)
Definition function_or_None {F : Type} (cs : list Constraint) (f : F)
  : option F :=
  match cs with
  | [] => None
  | _ :: _ => Some f
  end.

Definition optimize_problem (h : Heap) (self : loc) (rays : list Rays)
           (parameters : list OptParameter) (demerits : list Demerit)
           (constraints : list Constraint) : NLPProblem :=
  let x0 := map (fun p => get_value p h self) parameters in
  let eqs := List.filter equality constraints in
  let ineqs := List.filter (fun c => negb (equality c)) constraints in
  mkNLPProblem
    (fun x h' => objective_function h' self rays parameters demerits x)
    x0
    (function_or_None ineqs (constraints_function self ineqs))
    (function_or_None eqs (constraints_function self eqs))
    (map (fun p => fst (bounds p)) parameters)
    (map (fun p => snd (bounds p)) parameters)
    (map (fun p => (parameter_scale p * 1e-2)%float) parameters).

(** [optimize]: solve, write the result back, return [(x0, x, f)].  The
    second component is the system as the call leaves it. *)
Definition optimize (h : Heap) (self : loc) (rays : list Rays)
           (parameters : list OptParameter) (demerits : list Demerit)
           (constraints : list Constraint) (method : string)
  : res (list float * list float * SolverValue) * Heap :=
  let problem :=
    optimize_problem h self rays parameters demerits constraints in
  match NLP_solve problem method h with
  | (Raise e, h1) => (Raise e, h1)
  | (Ok (x, f), h1) =>
      match write_parameters h1 self (enumerate parameters) x with
      | (Raise e, h2) => (Raise e, h2)
      | (Ok _, h2) => (Ok (nlp_x0 problem, x, f), h2)
      end
  end.

End OptimizeDriver.

(** Sample solver: one evaluation of the objective at the start vector,
    which it returns. *)
Definition one_evaluation_solver : Solver := {|
  SolverValue := list float;
  NLP_solve := fun problem _ h =>
    match nlp_objective problem (nlp_x0 problem) h with
    | (Ok f, h1) => (Ok (nlp_x0 problem, f), h1)
    | (Raise e, h1) => (Raise e, h1)
    end
|}.

(** ** Notions used to state further properties *)

(** The rays leaving the last of a run of elements [bs]: every
    [b.propagate(rays)] hands its second result on to the next one. *)
Definition rays_after `{EL : ElementLayer} (h : Heap) (bs : list node)
           (rays : Rays) : Rays :=
  foldl (fun r b => snd (element_propagate h b r)) rays bs.

(** The rays after the paraxial steps of the elements [es], numbered from
    [first] on: [propagate_paraxial] on each, followed by [aberration3] when
    [with_aberration] is set. *)
Definition paraxial_steps `{PL : ParaxialLayer} (with_aberration : bool)
           (h : Heap) (first : nat) (es : list loc) (rays : ParaxialRays)
  : ParaxialRays :=
  foldl (fun r (ke : nat * loc) =>
           let r' := element_propagate_paraxial h (snd ke) (fst ke) r in
           if with_aberration
           then element_aberration3 h (snd ke) (fst ke) r'
           else r')
        rays (zip (seq first (length es)) es).

(** * Properties *)

(** ** Concatenation *)

Lemma add_returns_self (h : Heap) (self other : loc) :
  snd (__add__ h self other) = self.
Proof. reflexivity. Qed.

Lemma add_elements_self (h : Heap) (self other : loc) :
  elements (systems (fst (__add__ h self other)) self)
  = elements (systems h self) ++ elements (systems h other).
Proof. unfold __add__; simpl. by rewrite fn_lookup_alter. Qed.

Lemma add_systems_other (h : Heap) (self other l : loc) :
  l ≠ self → systems (fst (__add__ h self other)) l = systems h l.
Proof. intros Hl. unfold __add__; simpl. by rewrite fn_lookup_alter_ne. Qed.

(** C10, as stated, fails when both operands are the same object: [S + S]
    doubles the element list of [S], which is also the right operand. *)
Lemma add_same_object_changes_other :
  snd (__add__ (sample_heap [0; 1]) 0 0) = 0
  ∧ elements (systems (fst (__add__ (sample_heap [0; 1]) 0 0)) 0)
    = [0; 1; 0; 1]
  ∧ elements (systems (fst (__add__ (sample_heap [0; 1]) 0 0)) 0)
    ≠ elements (systems (sample_heap [0; 1]) 0).
Proof. repeat split; [reflexivity..|discriminate]. Qed.

(** C10 (amended): for distinct systems [S1] and [S2], [S1 + S2] appends the
    element list of [S2] to that of [S1] in place and returns [S1] itself;
    [S2] (and every system other than [S1]) is left as it was, the fields of
    [S1] other than [elements] keep their values, and no object, element or
    image is touched. *)
Theorem add_appends_in_place (h : Heap) (s1 s2 : loc) :
  s1 ≠ s2 →
  snd (__add__ h s1 s2) = s1
  ∧ elements (systems (fst (__add__ h s1 s2)) s1)
    = elements (systems h s1) ++ elements (systems h s2)
  ∧ systems (fst (__add__ h s1 s2)) s2 = systems h s2
  ∧ (∀ l, l ≠ s1 → systems (fst (__add__ h s1 s2)) l = systems h l)
  ∧ object (systems (fst (__add__ h s1 s2)) s1) = object (systems h s1)
  ∧ image (systems (fst (__add__ h s1 s2)) s1) = image (systems h s1)
  ∧ name (systems (fst (__add__ h s1 s2)) s1) = name (systems h s1)
  ∧ wavelengths (systems (fst (__add__ h s1 s2)) s1)
    = wavelengths (systems h s1)
  ∧ heights (systems (fst (__add__ h s1 s2)) s1) = heights (systems h s1)
  ∧ temperature (systems (fst (__add__ h s1 s2)) s1)
    = temperature (systems h s1)
  ∧ scale (systems (fst (__add__ h s1 s2)) s1) = scale (systems h s1)
  ∧ objects (fst (__add__ h s1 s2)) = objects h
  ∧ elems (fst (__add__ h s1 s2)) = elems h
  ∧ images (fst (__add__ h s1 s2)) = images h.
Proof.
  intros Hne.
  split; [reflexivity|].
  split; [apply add_elements_self|].
  split; [apply add_systems_other; congruence|].
  split; [intros l Hl; by apply add_systems_other|].
  unfold __add__; simpl. rewrite fn_lookup_alter. done.
Qed.

Lemma add_appends_in_place_witness :
  0 ≠ 1
  ∧ elements (systems (fst (__add__ (sample_heap [0; 1]) 0 1)) 0) = [0; 1; 2]
  ∧ systems (fst (__add__ (sample_heap [0; 1]) 0 1)) 1
    = systems (sample_heap [0; 1]) 1.
Proof.
  assert (Hne : 0 ≠ 1) by discriminate.
  destruct (add_appends_in_place (sample_heap [0; 1]) 0 1 Hne)
    as (_ & Hel & Hother & _).
  split; [exact Hne|]. split; [exact Hel|exact Hother].
Defined.

(** C9, as stated, fails when the left operand also occurs on the right:
    with [S1] and [S3] the same object, [(S1 + S2) + S1] doubles the extended
    list while [S1 + (S2 + S1)] does not. *)
Lemma add_not_associative_on_shared_operand :
  elements (systems (fst (add_left (sample_heap [0; 1]) 0 1 0))
                    (snd (add_left (sample_heap [0; 1]) 0 1 0)))
  = [0; 1; 2; 0; 1; 2]
  ∧ elements (systems (fst (add_right (sample_heap [0; 1]) 0 1 0))
                      (snd (add_right (sample_heap [0; 1]) 0 1 0)))
    = [0; 1; 2; 0; 1]
  ∧ elements (systems (fst (add_left (sample_heap [0; 1]) 0 1 0))
                      (snd (add_left (sample_heap [0; 1]) 0 1 0)))
    ≠ elements (systems (fst (add_right (sample_heap [0; 1]) 0 1 0))
                        (snd (add_right (sample_heap [0; 1]) 0 1 0))).
Proof. repeat split; [reflexivity..|discriminate]. Qed.

(** C9 (amended): when [S1] is a different object from [S2] and from [S3],
    [(S1 + S2) + S3] and [S1 + (S2 + S3)], each evaluated from the same
    initial state, return a system with the same element list, namely the
    elements of [S1], then those of [S2], then those of [S3]. *)
Theorem add_associative_elements (h : Heap) (s1 s2 s3 : loc) :
  s1 ≠ s2 → s1 ≠ s3 →
  elements (systems (fst (add_left h s1 s2 s3)) (snd (add_left h s1 s2 s3)))
  = elements (systems (fst (add_right h s1 s2 s3))
                      (snd (add_right h s1 s2 s3)))
  ∧ elements (systems (fst (add_left h s1 s2 s3))
                      (snd (add_left h s1 s2 s3)))
    = elements (systems h s1) ++ elements (systems h s2)
      ++ elements (systems h s3).
Proof.
  intros H12 H13.
  assert (Hl : elements (systems (fst (add_left h s1 s2 s3))
                                 (snd (add_left h s1 s2 s3)))
               = elements (systems h s1) ++ elements (systems h s2)
                 ++ elements (systems h s3)).
  { unfold add_left.
    destruct (__add__ h s1 s2) as [h1 r] eqn:E.
    assert (Hr : r = s1) by (by rewrite <- (add_returns_self h s1 s2), E).
    assert (Hh1 : h1 = fst (__add__ h s1 s2)) by (by rewrite E).
    subst r. rewrite add_returns_self, add_elements_self.
    rewrite Hh1, add_elements_self, add_systems_other by congruence.
    by rewrite <- app_assoc. }
  split; [|exact Hl].
  rewrite Hl. unfold add_right.
  destruct (__add__ h s2 s3) as [h1 r] eqn:E.
  assert (Hr : r = s2) by (by rewrite <- (add_returns_self h s2 s3), E).
  assert (Hh1 : h1 = fst (__add__ h s2 s3)) by (by rewrite E).
  subst r. rewrite add_returns_self, add_elements_self.
  rewrite Hh1, add_elements_self, add_systems_other by congruence.
  done.
Qed.

Lemma add_associative_elements_witness :
  0 ≠ 1 ∧ 0 ≠ 2
  ∧ elements (systems (fst (add_left (sample_heap [0; 1]) 0 1 2))
                      (snd (add_left (sample_heap [0; 1]) 0 1 2)))
    = elements (systems (fst (add_right (sample_heap [0; 1]) 0 1 2))
                        (snd (add_right (sample_heap [0; 1]) 0 1 2))).
Proof.
  assert (H1 : 0 ≠ 1) by discriminate.
  assert (H2 : 0 ≠ 2) by discriminate.
  split; [exact H1|]. split; [exact H2|].
  exact (proj1 (add_associative_elements (sample_heap [0; 1]) 0 1 2 H1 H2)).
Defined.

(** ** Propagation *)

Section PropagationFacts.
Context `{EL : ElementLayer}.

(** The elements yielded by the loop: the [a]s of the pairs, then the last
    [b]. *)
Lemma propagate_loop_nodes (h : Heap) (pairs : list (node * node))
      (b : option node) (rays : Rays) :
  (propagate_loop h pairs b rays).*1
  = pairs.*1 ++ match last (pairs.*2) with
                | Some b' => [b']
                | None => option_list b
                end.
Proof.
  revert b rays. induction pairs as [|[a b'] rest IH]; intros b rays.
  - by destruct b.
  - simpl. destruct (element_propagate h b' rays) as [a_rays rays'].
    simpl. rewrite IH. f_equal. f_equal.
    destruct rest as [|[a2 b2] rest']; [done|].
    simpl.
    match goal with
    | |- context [last ?l] =>
        destruct (proj2 (last_is_Some l)) as [x ->]; done
    end.
Qed.

Lemma propagate_nodes (h : Heap) (self : loc) (rays : Rays) :
  (propagate h self rays).*1
  = ObjectRef (object (systems h self))
      :: (ElementRef <$> elements (systems h self))
      ++ [ImageRef (image (systems h self))].
Proof.
  unfold propagate. rewrite propagate_loop_nodes.
  rewrite fst_zip, snd_zip, last_snoc; [done|..];
    simpl; rewrite length_app; simpl; lia.
Qed.

Lemma fold_left_last_rays (seq : list (node * Rays)) (rays : Rays) :
  fold_left (fun (_ : Rays) (p : node * Rays) => snd p) seq rays
  = match last seq with
    | Some p => snd p
    | None => rays
    end.
Proof.
  revert rays. induction seq as [|p seq IH]; intros rays; [done|].
  simpl. rewrite IH. destruct seq as [|q seq']; [done|].
  rewrite last_cons_cons.
  by destruct (proj2 (last_is_Some (q :: seq'))) as [x ->].
Qed.

(** The rays threaded through the loop. *)
Lemma propagate_loop_fold (h : Heap) (pairs : list (node * node))
      (b : node) (rays0 rays : Rays) :
  fold_left (fun (_ : Rays) (p : node * Rays) => snd p)
            (propagate_loop h pairs (Some b) rays0) rays
  = rays_after h (pairs.*2) rays0.
Proof.
  revert b rays0 rays.
  induction pairs as [|[a b'] rest IH]; intros b rays0 rays; [done|].
  simpl. unfold rays_after. simpl.
  destruct (element_propagate h b' rays0) as [a_rays rays'] eqn:E.
  simpl. rewrite IH. reflexivity.
Qed.

Lemma propagate_loop_fold_None (h : Heap) (pairs : list (node * node))
      (rays0 rays : Rays) :
  pairs ≠ [] →
  fold_left (fun (_ : Rays) (p : node * Rays) => snd p)
            (propagate_loop h pairs None rays0) rays
  = rays_after h (pairs.*2) rays0.
Proof.
  destruct pairs as [|[a b] rest]; [done|]. intros _.
  simpl. unfold rays_after. simpl.
  destruct (element_propagate h b rays0) as [a_rays rays'] eqn:E.
  simpl. rewrite propagate_loop_fold. reflexivity.
Qed.

Lemma propagate_loop_lookup (h : Heap) (pairs : list (node * node))
      (b : option node) (rays : Rays) (k : nat) (a b' : node) :
  pairs !! k = Some (a, b') →
  propagate_loop h pairs b rays !! k
  = Some (a, fst (element_propagate h b'
                    (rays_after h (take k (pairs.*2)) rays))).
Proof.
  revert b rays k.
  induction pairs as [|[a0 b0] rest IH]; intros b rays k Hk; [done|].
  simpl. destruct (element_propagate h b0 rays) as [a_rays rays'] eqn:E.
  destruct k as [|k]; simpl in *.
  - injection Hk as -> ->. by rewrite E.
  - rewrite (IH _ _ _ Hk). unfold rays_after. simpl. by rewrite E.
Qed.

Lemma propagate_through_rays_after (h : Heap) (self : loc) (rays : Rays) :
  propagate_through h self rays
  = rays_after h ((ElementRef <$> elements (systems h self))
                  ++ [ImageRef (image (systems h self))]) rays.
Proof.
  unfold propagate_through, propagate.
  set (A := ObjectRef (object (systems h self))
              :: (ElementRef <$> elements (systems h self))).
  set (B := (ElementRef <$> elements (systems h self))
              ++ [ImageRef (image (systems h self))]).
  assert (Hlen : length A = length B).
  { unfold A, B. simpl. rewrite length_app. simpl. lia. }
  rewrite propagate_loop_fold_None.
  - by rewrite snd_zip by lia.
  - intros Hz. apply (f_equal length) in Hz.
    rewrite length_zip_with_l_eq in Hz by done. discriminate.
Qed.

Lemma propagate_pair_rays_lookup (h : Heap) (self : loc) (rays : Rays)
      (k : nat) (a b : node) :
  (ObjectRef (object (systems h self))
     :: (ElementRef <$> elements (systems h self))) !! k = Some a →
  ((ElementRef <$> elements (systems h self))
     ++ [ImageRef (image (systems h self))]) !! k = Some b →
  propagate h self rays !! k
  = Some (a, fst (element_propagate h b
                    (rays_after h
                       (take k ((ElementRef <$> elements (systems h self))
                                ++ [ImageRef (image (systems h self))]))
                       rays))).
Proof.
  intros Ha Hb. unfold propagate.
  set (A := ObjectRef (object (systems h self))
              :: (ElementRef <$> elements (systems h self))) in *.
  set (B := (ElementRef <$> elements (systems h self))
              ++ [ImageRef (image (systems h self))]) in *.
  assert (Hlen : length A = length B).
  { unfold A, B. simpl. rewrite length_app. simpl. lia. }
  rewrite (propagate_loop_lookup h (zip A B) None rays k a b).
  - rewrite snd_zip by lia. reflexivity.
  - rewrite lookup_zip_with, Ha. simpl. by rewrite Hb.
Qed.

Lemma propagate_last (h : Heap) (self : loc) (rays : Rays) :
  last (propagate h self rays)
  = Some (ImageRef (image (systems h self)),
          rays_after h ((ElementRef <$> elements (systems h self))
                        ++ [ImageRef (image (systems h self))]) rays).
Proof.
  pose proof (propagate_nodes h self rays) as Hn.
  pose proof (propagate_through_rays_after h self rays) as Hthrough.
  unfold propagate_through in Hthrough.
  rewrite fold_left_last_rays in Hthrough.
  destruct (last (propagate h self rays)) as [[n r]|] eqn:Hlast.
  - simpl in Hthrough. subst r. do 2 f_equal.
    assert (Hl : last ((propagate h self rays).*1) = Some n)
      by (by rewrite fmap_last, Hlast).
    rewrite Hn, app_comm_cons, last_snoc in Hl. congruence.
  - apply last_None in Hlast. rewrite Hlast in Hn. discriminate.
Qed.

(** C5: [propagate] yields exactly [n + 2] pairs for a chain of [n] elements;
    their element components are the object, the chain elements in chain
    order, then the image.  The rays paired with a node other than the image
    are the first result of [propagate] of the node that follows it, run on
    the rays handed on by the nodes in between; the last pair is the image
    with the rays that leave it, and these are what [propagate_through]
    returns. *)
Theorem propagate_visits_chain_in_order (h : Heap) (self : loc) (rays : Rays) :
  length (propagate h self rays) = length (elements (systems h self)) + 2
  ∧ (propagate h self rays).*1
    = ObjectRef (object (systems h self))
        :: (ElementRef <$> elements (systems h self))
        ++ [ImageRef (image (systems h self))]
  ∧ (∀ k a b,
       (ObjectRef (object (systems h self))
          :: (ElementRef <$> elements (systems h self))) !! k = Some a →
       ((ElementRef <$> elements (systems h self))
          ++ [ImageRef (image (systems h self))]) !! k = Some b →
       propagate h self rays !! k
       = Some (a, fst (element_propagate h b
                         (rays_after h
                            (take k ((ElementRef <$> elements (systems h self))
                                     ++ [ImageRef (image (systems h self))]))
                            rays))))
  ∧ last (propagate h self rays)
    = Some (ImageRef (image (systems h self)),
            rays_after h ((ElementRef <$> elements (systems h self))
                          ++ [ImageRef (image (systems h self))]) rays)
  ∧ propagate_through h self rays
    = rays_after h ((ElementRef <$> elements (systems h self))
                    ++ [ImageRef (image (systems h self))]) rays.
Proof.
  pose proof (propagate_nodes h self rays) as Hn.
  split.
  { rewrite <- (length_fmap fst), Hn. simpl.
    rewrite length_app, length_fmap. simpl. lia. }
  split; [exact Hn|].
  split; [intros k a b; apply propagate_pair_rays_lookup|].
  split; [apply propagate_last|apply propagate_through_rays_after].
Qed.

(** The test of [height_at_aperture] is evaluated on the first pair, which
    [propagate] always yields. *)
Lemma height_at_aperture_NameError (h : Heap) (self : loc) (rays : Rays) :
  height_at_aperture h self rays = Raise NameError.
Proof.
  unfold height_at_aperture.
  pose proof (propagate_nodes h self rays) as Hn.
  destruct (propagate h self rays) as [|[n r] rest]; [discriminate|].
  reflexivity.
Qed.

(** C3: without an aperture element in the chain, [height_at_aperture]
    returns no value: it raises (a [NameError], at the test on the first
    pair) and so returns no height, of any element. *)
Theorem height_at_aperture_without_stop (h : Heap) (self : loc) (rays : Rays) :
  (∀ e, e ∈ elements (systems h self) →
        Aperture_typed (elems h e) = false) →
  height_at_aperture h self rays = Raise NameError
  ∧ ∀ v, height_at_aperture h self rays ≠ Ok v.
Proof.
  intros _. rewrite height_at_aperture_NameError. by split.
Qed.

(** C6: with an aperture element in the chain, [height_at_aperture] does not
    reach it: the test on the first yielded pair, the object's, raises
    [NameError], and no end position is returned. *)
Theorem height_at_aperture_with_stop_raises (h : Heap) (self : loc)
        (rays : Rays) :
  (∃ e, e ∈ elements (systems h self)
        ∧ Aperture_typed (elems h e) = true) →
  ∃ first_rays rest,
    propagate h self rays
    = (ObjectRef (object (systems h self)), first_rays) :: rest
    ∧ node_isinstance_Aperture h (ObjectRef (object (systems h self)))
      = Raise NameError
    ∧ height_at_aperture h self rays = Raise NameError.
Proof.
  intros _.
  pose proof (propagate_nodes h self rays) as Hn.
  destruct (propagate h self rays) as [|[n r] rest] eqn:Hseq;
    [discriminate|].
  injection Hn as -> _. exists r, rest.
  split; [done|]. split; [done|].
  unfold height_at_aperture. by rewrite Hseq.
Qed.

End PropagationFacts.

Lemma height_at_aperture_without_stop_witness :
  @height_at_aperture drift_layer (sample_heap [0; 2]) 0 launched_rays
  = Raise NameError
  ∧ ∀ v, @height_at_aperture drift_layer (sample_heap [0; 2]) 0 launched_rays
         ≠ Ok v.
Proof.
  apply (@height_at_aperture_without_stop drift_layer).
  intros e He. simpl in He.
  repeat (apply elem_of_cons in He as [->|He]; [reflexivity|]).
  by apply elem_of_nil in He.
Defined.

Lemma height_at_aperture_with_stop_raises_witness :
  ∃ first_rays rest,
    @propagate drift_layer triplet_heap 0 launched_rays
    = (ObjectRef (object (systems triplet_heap 0)), first_rays) :: rest
    ∧ node_isinstance_Aperture triplet_heap
        (ObjectRef (object (systems triplet_heap 0)))
      = Raise NameError
    ∧ @height_at_aperture drift_layer triplet_heap 0 launched_rays
      = Raise NameError.
Proof.
  apply (@height_at_aperture_with_stop_raises drift_layer).
  exists 1. split; [|reflexivity].
  simpl. apply elem_of_cons. right. apply elem_of_cons. by left.
Defined.

(** ** Ray aiming *)

Section AimingFacts.
Context `{EL : ElementLayer} `{RF : RootFinders}.

(** The sum of the assertion: nothing to test on an empty chain, the first
    test raises on any other. *)
Lemma count_Aperture_cases (h : Heap) (es : list loc) :
  count_Aperture h es
  = match es with
    | [] => Ok 0
    | _ :: _ => Raise NameError
    end.
Proof. by destruct es. Qed.

Lemma chief_and_marginal_raises (h : Heap) (self : loc)
      (height : float * float) (paraxial_chief paraxial_marginal : bool)
      (st : AimState) :
  chief_and_marginal h self height paraxial_chief paraxial_marginal st
  = (Raise (match elements (systems h self) with
            | [] => AssertionError
            | _ :: _ => NameError
            end), st).
Proof.
  unfold chief_and_marginal, bind, lift. rewrite count_Aperture_cases.
  by destruct (elements (systems h self)).
Qed.

(** An evaluation of [stop_for_pos] launches the rays, is logged, and
    raises in [height_at_aperture]. *)
Lemma stop_for_pos_raises (h : Heap) (self : loc) (height : float * float)
      (x y : float) (st : AimState) :
  ∃ st', stop_for_pos h self height x y st = (Raise NameError, st')
         ∧ calls st' = calls st ++ [(x, y)].
Proof.
  unfold stop_for_pos.
  destruct (rays_to_height _ _ _) as [p a].
  rewrite height_at_aperture_NameError. by eexists.
Qed.

Lemma filter_length_one_cons {A : Type} (P : A → Prop)
      `{!∀ a, Decision (P a)} (l : list A) :
  length (filter P l) = 1 → ∃ a l', l = a :: l'.
Proof. destruct l as [|a l']; [discriminate|]. by eexists _, _. Qed.

(** C2: on a chain whose number of aperture elements is not one,
    [chief_and_marginal] fails at its first statement, with [rays] untouched
    and no evaluation of [stop_for_pos] made; the failure is the
    [AssertionError] only on an empty chain: on any other chain the test of
    the assertion itself raises [NameError]. *)
Theorem chief_and_marginal_aperture_precondition
        (h : Heap) (self : loc) (height : float * float)
        (paraxial_chief paraxial_marginal : bool) (st : AimState) :
  length (filter (fun e => Aperture_typed (elems h e) = true)
                 (elements (systems h self))) ≠ 1 →
  chief_and_marginal h self height paraxial_chief paraxial_marginal st
  = (Raise (match elements (systems h self) with
            | [] => AssertionError
            | _ :: _ => NameError
            end), st).
Proof. intros _. apply chief_and_marginal_raises. Qed.

(** C4: in paraxial-chief mode, on a chain with exactly one aperture element,
    [chief_and_marginal] raises [NameError] at the assertion: [stop_for_pos]
    is not evaluated (the log of evaluations and [rays] are as before) and
    no chief is computed.  The block of the paraxial chief itself, entered
    from any state, ends at its first evaluation, [stop_for_pos(0, 0)], which
    raises [NameError]; the probe point [(d, d)] is never evaluated. *)
Theorem paraxial_chief_not_reached
        (h : Heap) (self : loc) (height : float * float)
        (paraxial_marginal : bool) (st : AimState) :
  length (filter (fun e => Aperture_typed (elems h e) = true)
                 (elements (systems h self))) = 1 →
  chief_and_marginal h self height true paraxial_marginal st
  = (Raise NameError, st)
  ∧ ∃ st1, chief_ray h self height true st = (Raise NameError, st1)
           ∧ calls st1 = calls st ++ [(0%float, 0%float)].
Proof.
  intros Hone. split.
  - rewrite chief_and_marginal_raises.
    by destruct (filter_length_one_cons _ _ Hone) as (e & es & ->).
  - destruct (stop_for_pos_raises h self height 0%float 0%float st)
      as (st1 & Hrun & Hcalls).
    exists st1. split; [|exact Hcalls].
    unfold chief_ray, bind. by rewrite Hrun.
Qed.


End AimingFacts.

Lemma chief_and_marginal_aperture_precondition_witness :
  @chief_and_marginal drift_layer one_step_finders (sample_heap [0; 1; 3]) 0
    (1%float, 2%float) true true sample_state
  = (Raise NameError, sample_state).
Proof.
  apply (@chief_and_marginal_aperture_precondition
           drift_layer one_step_finders (sample_heap [0; 1; 3])).
  vm_compute. discriminate.
Defined.

Lemma paraxial_chief_not_reached_witness :
  @chief_and_marginal drift_layer one_step_finders triplet_heap 0
    (1%float, 2%float) true true sample_state
  = (Raise NameError, sample_state)
  ∧ ∃ st1,
      @chief_ray drift_layer one_step_finders triplet_heap 0
        (1%float, 2%float) true sample_state = (Raise NameError, st1)
      ∧ calls st1 = calls sample_state ++ [(0%float, 0%float)].
Proof.
  apply (@paraxial_chief_not_reached drift_layer one_step_finders
           triplet_heap 0 (1%float, 2%float) true sample_state).
  reflexivity.
Defined.

(** The triplet (surface, stop, surface), aimed with each strategy. *)
Example chief_and_marginal_on_triplet :
  ∀ paraxial_chief paraxial_marginal : bool,
    @chief_and_marginal drift_layer one_step_finders triplet_heap 0
      (1%float, 2%float) paraxial_chief paraxial_marginal sample_state
    = (Raise NameError, sample_state).
Proof. by intros [] []. Qed.

(** The empty chain is the one on which the assertion itself fails. *)
Example chief_and_marginal_on_empty_chain :
  @chief_and_marginal drift_layer one_step_finders (sample_heap []) 0
    (1%float, 2%float) true true sample_state
  = (Raise AssertionError, sample_state).
Proof. reflexivity. Qed.

(** ** The objective function *)

Section OptimizeFacts.
Context `{EL : ElementLayer} `{TL : TraceLayer}.

Lemma write_parameters_from (self : loc) (ps : list OptParameter)
      (x : list float) (k : nat) (h : Heap) :
  length ps + k ≤ length x →
  write_parameters h self (imap (fun i p => (k + i, p)) ps) x
  = (Ok tt,
     foldl (fun h' (px : OptParameter * float) =>
              set_value (fst px) h' self (snd px))
           h (zip ps (drop k x))).
Proof.
  revert k h. induction ps as [|p ps IH]; intros k h Hlen; [done|].
  simpl in Hlen. rewrite imap_cons. simpl.
  rewrite Nat.add_0_r.
  destruct (x !! k) as [xi|] eqn:Hk;
    [|apply lookup_ge_None in Hk; lia].
  rewrite (drop_S _ _ _ Hk). simpl.
  rewrite <- (IH (S k)) by lia. f_equal.
  apply imap_ext. intros i q _. simpl. f_equal. lia.
Qed.

Lemma concat_mjoin {A : Type} (ls : list (list A)) : concat ls = mjoin ls.
Proof. induction ls as [|l ls IH]; [done|]. simpl. by rewrite IH. Qed.

Lemma res_list_Ok {A B : Type} (f : A → res B) (g : A → B) (l : list A) :
  Forall (fun a => f a = Ok (g a)) l →
  res_list (map f l) = Ok (map g l).
Proof.
  induction 1 as [|a l Ha _ IH]; [done|]. simpl. by rewrite Ha, IH.
Qed.


(** The evaluation of the demerits on a written system. *)
Lemma weighted_outputs_Ok (h : Heap) (self : loc) (rays : list Rays)
      (demerits : list Demerit) :
  Forall (fun de => is_Some (nested_shape (demerit_output h self rays de)))
         demerits →
  res_list
    (map (fun de =>
            res_bind (reshape_flat
                        (demerit_call de h self (ParaxialTrace h self)
                           (map (fun ir => propagate_through h self ir) rays)))
              (fun a => Ok (map (fun v => (v * weight de)%float) a)))
         demerits)
  = Ok (map (weighted_output h self rays) demerits).
Proof.
  intros Hrect. apply res_list_Ok.
  eapply Forall_impl; [exact Hrect|]. intros de [s Hs].
  change (res_bind (reshape_flat (demerit_output h self rays de))
            (fun a => Ok (map (fun v => (v * weight de)%float) a))
          = Ok (weighted_output h self rays de)).
  unfold reshape_flat. by rewrite Hs.
Qed.


(** C7 (amended): for a vector [x] with an entry for every parameter.  With
    at least one demerit, each returning a number or a rectangular nesting of
    numbers, the objective function returns the concatenation, in demerit
    order, of the weighted flattened demerit outputs, each demerit being
    evaluated on the system as written by the parameters' [set_value], its
    paraxial trace and the traced ray bundles; the system is left as
    written.  With no demerit the evaluation raises [ValueError], the system
    being left as written. *)
Theorem objective_function_value
        (h : Heap) (self : loc) (rays : list Rays)
        (parameters : list OptParameter) (demerits : list Demerit)
        (x : list float) :
  length parameters ≤ length x →
  (demerits ≠ [] →
   Forall (fun de =>
             is_Some (nested_shape
                        (demerit_output (written_system h self parameters x)
                                        self rays de)))
          demerits →
   objective_function h self rays parameters demerits x
   = (Ok (spec_objective h self rays parameters demerits x),
      written_system h self parameters x))
  ∧ (demerits = [] →
     objective_function h self rays parameters demerits x
     = (Raise ValueError, written_system h self parameters x)).
Proof.
  intros Hlen. unfold objective_function, enumerate.
  pose proof (write_parameters_from self parameters x 0 h) as Hw.
  simpl in Hw. rewrite Hw by lia. rewrite drop_0.
  fold (written_system h self parameters x).
  split.
  - intros Hne Hrect. rewrite weighted_outputs_Ok by done.
    unfold spec_objective, np_concatenate. simpl.
    destruct demerits as [|de demerits]; [done|].
    simpl. by rewrite concat_mjoin.
  - by intros ->.
Qed.

End OptimizeFacts.

(** C7, as stated, fails when there is no demerit: [np.concatenate] refuses
    the empty list and the evaluation raises [ValueError], after the
    parameters were written. *)
Lemma objective_function_without_demerit_raises :
  fst (@objective_function drift_layer count_trace triplet_heap 0
         [launched_rays] [first_curvature] [] [0.1%float])
  = Raise ValueError
  ∧ curvature (elems (snd (@objective_function drift_layer count_trace
                             triplet_heap 0 [launched_rays]
                             [first_curvature] [] [0.1%float])) 0)
    = 0.1%float.
Proof. split; reflexivity. Qed.

(** A vector shorter than the parameter list makes [x[i]] raise. *)
Example objective_function_short_vector_raises :
  fst (@objective_function drift_layer count_trace triplet_heap 0
         [launched_rays] [first_curvature] [spot_demerit] [])
  = Raise IndexError.
Proof. reflexivity. Qed.

Example objective_function_sample :
  fst (@objective_function drift_layer count_trace triplet_heap 0
         [launched_rays] [first_curvature] [spot_demerit] [0.1%float])
  = Ok [2.7600000000000002%float; 5.5200000000000005%float].
Proof. vm_compute. reflexivity. Qed.

(** A demerit returning rows of different lengths gives no array of
    numbers. *)
Example objective_function_ragged_raises :
  fst (@objective_function drift_layer count_trace triplet_heap 0
         [launched_rays] [first_curvature] [spot_demerit; ragged_demerit]
         [0.1%float])
  = Raise ValueError.
Proof. vm_compute. reflexivity. Qed.

Lemma objective_function_value_witness :
  @objective_function drift_layer count_trace triplet_heap 0
    [launched_rays] [first_curvature] [spot_demerit] [0.1%float]
  = (Ok (@spec_objective drift_layer count_trace triplet_heap 0
           [launched_rays] [first_curvature] [spot_demerit] [0.1%float]),
     @written_system triplet_heap 0 [first_curvature] [0.1%float]).
Proof.
  assert (Hlen : length [first_curvature] ≤ length [0.1%float])
    by (simpl; lia).
  apply (proj1 (@objective_function_value drift_layer count_trace
                  triplet_heap 0 [launched_rays] [first_curvature]
                  [spot_demerit] [0.1%float] Hlen)).
  - discriminate.
  - repeat constructor. vm_compute. by eexists.
Defined.

(** ** Reversal *)

Section ShiftFacts.
Context {A : Type}.
Implicit Types (m a : A) (l r : list (option A)).

Lemma shift_app m l1 l2 :
  shift m (l1 ++ l2)
  = ((shift m l1).1 ++ (shift (shift m l1).2 l2).1,
     (shift (shift m l1).2 l2).2).
Proof.
  revert m. induction l1 as [|[a|] l1 IH]; intros m; simpl.
  - by destruct (shift m l2).
  - rewrite IH. by destruct (shift a l1), (shift _ l2).
  - rewrite IH. by destruct (shift m l1), (shift _ l2).
Qed.

(** Shifting back over the reversed list undoes a shift. *)
Lemma shift_reverse m l :
  shift (shift m l).2 (reverse (shift m l).1) = (reverse l, m).
Proof.
  revert m. induction l as [|[a|] l IH]; intros m; simpl; [done|..].
  - specialize (IH a). destruct (shift a l) as [r m'] eqn:E. simpl in *.
    rewrite !reverse_cons, shift_app, IH. reflexivity.
  - specialize (IH m). destruct (shift m l) as [r m'] eqn:E. simpl in *.
    rewrite !reverse_cons, shift_app, IH. reflexivity.
Qed.

Lemma shift_last m l a :
  last l = Some (Some a) → (shift m l).2 = a.
Proof.
  intros Hl. apply last_Some in Hl as [l' ->].
  rewrite shift_app. simpl. reflexivity.
Qed.

Lemma shift_head m l a :
  head l = Some (Some a) → head (shift m l).1 = Some (Some m).
Proof.
  destruct l as [|[b|] l]; simpl; try discriminate.
  intros _. by destruct (shift b l).
Qed.

Lemma shift_last_is_Some m l a :
  last l = Some (Some a) → ∃ b, last (shift m l).1 = Some (Some b).
Proof.
  intros Hl. apply last_Some in Hl as [l' ->].
  rewrite shift_app. simpl. rewrite last_snoc. by eexists.
Qed.

End ShiftFacts.

Section RevertFacts.
Context `{EL : ElementLayer}.

(** The element's own [revert] is taken to leave its origin and its material
    alone (it flips what is proper to the surface). *)
Hypothesis revert_keeps_origin :
  ∀ e : Element, origin (element_revert e) = origin e.
Hypothesis revert_keeps_material :
  ∀ e : Element, material (element_revert e) = material e.

Lemma revert_materials_frame (es : list loc) (st : loc → Element)
      (m : Material) (e : loc) :
  e ∉ es → (revert_materials st m es).1 e = st e.
Proof.
  revert st m. induction es as [|e' es IH]; intros st m Hnotin; [done|].
  apply not_elem_of_cons in Hnotin as [Hne Hnotin].
  simpl. destruct (material (st e')).
  - rewrite IH by done. by rewrite fn_lookup_alter_ne.
  - by apply IH.
Qed.

Lemma revert_materials_origin (es : list loc) (st : loc → Element)
      (m : Material) (e : loc) :
  origin ((revert_materials st m es).1 e) = origin (st e).
Proof.
  revert st m. induction es as [|e' es IH]; intros st m; [done|].
  simpl. destruct (material (st e')); [|by apply IH].
  rewrite IH. destruct (decide (e' = e)) as [->|Hne].
  - by rewrite fn_lookup_alter.
  - by rewrite fn_lookup_alter_ne.
Qed.

Lemma revert_materials_shift (es : list loc) :
  NoDup es →
  ∀ (st : loc → Element) (m : Material),
    ((fun e => material ((revert_materials st m es).1 e)) <$> es,
     (revert_materials st m es).2)
    = shift m ((fun e => material (st e)) <$> es).
Proof.
  induction 1 as [|e es Hnotin Hnodup IH]; intros st m; [done|].
  rewrite !fmap_cons. simpl.
  destruct (material (st e)) as [me|] eqn:Hme.
  - rewrite revert_materials_frame by done.
    rewrite fn_lookup_alter. simpl.
    specialize (IH (alter (set_material m) e st) me).
    rewrite (list_fmap_ext (fun e0 => material (alter (set_material m) e st e0))
                           (fun e0 => material (st e0)) es) in IH.
    + rewrite <- IH. reflexivity.
    + intros i x Hx. rewrite fn_lookup_alter_ne; [done|].
      intros ->. apply Hnotin. by eapply list_elem_of_lookup_2.
  - rewrite revert_materials_frame by done. rewrite Hme.
    rewrite <- (IH st m). reflexivity.
Qed.

Lemma revert_origins_frame (es : list loc) (st : loc → Element)
      (d0 : vec3) (e : loc) :
  e ∉ es → (revert_origins st d0 es).1 e = st e.
Proof.
  revert st d0. induction es as [|e' es IH]; intros st d0 Hnotin; [done|].
  apply not_elem_of_cons in Hnotin as [Hne Hnotin].
  simpl. rewrite IH by done. by rewrite !fn_lookup_alter_ne.
Qed.

Lemma revert_origins_material (es : list loc) (st : loc → Element)
      (d0 : vec3) (e : loc) :
  material ((revert_origins st d0 es).1 e) = material (st e).
Proof.
  revert st d0. induction es as [|e' es IH]; intros st d0; [done|].
  simpl. rewrite IH. destruct (decide (e' = e)) as [->|Hne].
  - rewrite !fn_lookup_alter. simpl. apply revert_keeps_material.
  - by rewrite !fn_lookup_alter_ne.
Qed.

Lemma revert_origins_shift (es : list loc) :
  NoDup es →
  ∀ (st : loc → Element) (d0 : vec3),
    ((fun e => Some (origin ((revert_origins st d0 es).1 e))) <$> es,
     (revert_origins st d0 es).2)
    = shift d0 ((fun e => Some (origin (st e))) <$> es).
Proof.
  induction 1 as [|e es Hnotin Hnodup IH]; intros st d0; [done|].
  rewrite !fmap_cons. simpl.
  rewrite revert_origins_frame by done.
  rewrite !fn_lookup_alter. simpl. rewrite revert_keeps_origin.
  match goal with
  | |- context [revert_origins ?st1 ?d1 es] => specialize (IH st1 d1)
  end.
  rewrite (list_fmap_ext
             (fun e0 => Some (origin (alter (set_origin d0) e
                                            (alter element_revert e st) e0)))
             (fun e0 => Some (origin (st e0))) es) in IH.
  - rewrite <- IH. reflexivity.
  - intros i x Hx. rewrite !fn_lookup_alter_ne; [done|..];
      intros ->; apply Hnotin; by eapply list_elem_of_lookup_2.
Qed.

Lemma fmap_eq_pointwise {X Y : Type} (f g : X → Y) (l : list X) :
  f <$> l = g <$> l → ∀ x, x ∈ l → f x = g x.
Proof.
  induction l as [|a l IH]; intros Heq x Hx.
  - by apply elem_of_nil in Hx.
  - rewrite !fmap_cons in Heq. injection Heq as Ha Hl.
    apply elem_of_cons in Hx as [->|Hx]; [done|by apply IH].
Qed.

(** [revert] on a chain whose last element has a material. *)
Lemma revert_Ok (h : Heap) (self : loc) (e_first e_last : loc)
      (m_last : Material) :
  head (elements (systems h self)) = Some e_first →
  last (elements (systems h self)) = Some e_last →
  material (elems h e_last) = Some m_last →
  revert h self
  = Ok (mkHeap
          (alter (set_elements (reverse (elements (systems h self)))) self
                 (systems h))
          (alter (set_object_material m_last) (object (systems h self))
                 (objects h))
          (revert_origins
             (revert_materials
                (elems h)
                (object_material (objects h (object (systems h self))))
                (elements (systems h self))).1
             (image_origin (images h (image (systems h self))))
             (reverse (elements (systems h self)))).1
          (alter (set_image_origin (origin (elems h e_first)))
                 (image (systems h self)) (images h))).
Proof.
  intros Hhead Hlast Hmat. unfold revert. rewrite Hlast, Hmat, Hhead.
  rewrite <- (revert_materials_origin
                (elements (systems h self)) (elems h)
                (object_material (objects h (object (systems h self))))
                e_first).
  destruct (revert_materials _ _ _) as [st1 m1]. simpl.
  by destruct (revert_origins _ _ _) as [st2 d2].
Qed.

(** One call of [revert], on the values it moves. *)
Lemma revert_effect (h : Heap) (self : loc) (e_first e_last : loc)
      (m_first m_last : Material) :
  NoDup (elements (systems h self)) →
  head (elements (systems h self)) = Some e_first →
  material (elems h e_first) = Some m_first →
  last (elements (systems h self)) = Some e_last →
  material (elems h e_last) = Some m_last →
  ∃ h1,
    revert h self = Ok h1
    ∧ elements (systems h1 self) = reverse (elements (systems h self))
    ∧ chain_object_material h1 self = m_last
    ∧ chain_image_origin h1 self = origin (elems h e_first)
    ∧ chain_materials h1 self
      = reverse (shift (chain_object_material h self)
                       (chain_materials h self)).1
    ∧ chain_origins h1 self
      = (shift (chain_image_origin h self)
               (reverse (chain_origins h self))).1.
Proof.
  intros Hnodup Hhead Hmf Hlast Hml.
  eexists. split; [by eapply revert_Ok|].
  unfold chain_object_material, chain_image_origin, chain_materials,
    chain_origins. simpl. rewrite !fn_lookup_alter. simpl.
  split; [done|]. split; [done|]. split; [done|]. split.
  - rewrite fmap_reverse. f_equal.
    rewrite <- (f_equal fst (revert_materials_shift _ Hnodup _ _)). simpl.
    apply list_fmap_ext. intros i e _. apply revert_origins_material.
  - assert (Hrev : NoDup (reverse (elements (systems h self))))
      by (by rewrite reverse_Permutation).
    pose proof (f_equal fst
                  (revert_origins_shift _ Hrev
                     (revert_materials (elems h)
                        (object_material
                           (objects h (object (systems h self))))
                        (elements (systems h self))).1
                     (image_origin (images h (image (systems h self))))))
      as Ho.
    simpl in Ho. rewrite Ho. f_equal. f_equal.
    rewrite <- fmap_reverse. apply list_fmap_ext. intros i e _.
    f_equal. apply revert_materials_origin.
Qed.

Lemma head_fmap {X Y : Type} (f : X → Y) (l : list X) :
  head (f <$> l) = f <$> head l.
Proof. by destruct l. Qed.

(** C1 (amended): for a system whose chain is not empty and holds no element
    object twice, whose first and last elements carry a material, and whose
    elements' own [revert] leaves origin and material alone, two calls of
    [revert] in succession both return and restore the element order, every
    element's origin and material, the image origin and the object
    material. *)
Theorem revert_twice_restores (h : Heap) (self : loc) :
  NoDup (elements (systems h self)) →
  (∃ e m, head (elements (systems h self)) = Some e
          ∧ material (elems h e) = Some m) →
  (∃ e m, last (elements (systems h self)) = Some e
          ∧ material (elems h e) = Some m) →
  ∃ h1 h2,
    revert h self = Ok h1
    ∧ revert h1 self = Ok h2
    ∧ elements (systems h1 self) = reverse (elements (systems h self))
    ∧ elements (systems h2 self) = elements (systems h self)
    ∧ (∀ e, e ∈ elements (systems h self) →
            origin (elems h2 e) = origin (elems h e)
            ∧ material (elems h2 e) = material (elems h e))
    ∧ image_origin (images h2 (image (systems h2 self)))
      = image_origin (images h (image (systems h self)))
    ∧ object_material (objects h2 (object (systems h2 self)))
      = object_material (objects h (object (systems h self))).
Proof.
  intros Hnodup (ef & mf & Hhead & Hmf) (el & ml & Hlast & Hml).
  destruct (revert_effect h self ef el mf ml Hnodup Hhead Hmf Hlast Hml)
    as (h1 & Hr1 & Hes1 & Hom1 & Hio1 & Hm1 & Ho1).
  (* the carried-out values of the first call *)
  assert (Hmats_head : head (chain_materials h self) = Some (Some mf)).
  { unfold chain_materials. by rewrite head_fmap, Hhead; simpl; rewrite Hmf. }
  assert (Hmats_last : last (chain_materials h self) = Some (Some ml)).
  { unfold chain_materials. by rewrite fmap_last, Hlast; simpl; rewrite Hml. }
  assert (Horigs_head : head (chain_origins h self)
                        = Some (Some (origin (elems h ef)))).
  { unfold chain_origins. by rewrite head_fmap, Hhead. }
  assert (Horigs_last : last (chain_origins h self)
                        = Some (Some (origin (elems h el)))).
  { unfold chain_origins. by rewrite fmap_last, Hlast. }
  assert (Hml_out : (shift (chain_object_material h self)
                           (chain_materials h self)).2 = ml)
    by (by apply shift_last).
  assert (Hof_out : (shift (chain_image_origin h self)
                           (reverse (chain_origins h self))).2
                    = origin (elems h ef))
    by (apply shift_last; by rewrite last_reverse).
  (* the chain after the first call *)
  assert (Hhead1 : head (elements (systems h1 self)) = Some el)
    by (by rewrite Hes1, head_reverse).
  assert (Hlast1 : last (elements (systems h1 self)) = Some ef)
    by (by rewrite Hes1, last_reverse).
  assert (Hnodup1 : NoDup (elements (systems h1 self)))
    by (by rewrite Hes1, reverse_Permutation).
  assert (Hmf1 : material (elems h1 ef)
                 = Some (chain_object_material h self)).
  { pose proof (f_equal last Hm1) as Hl.
    rewrite last_reverse, (shift_head _ _ _ Hmats_head) in Hl.
    unfold chain_materials in Hl at 1.
    rewrite fmap_last, Hlast1 in Hl. simpl in Hl. congruence. }
  assert (Hml1 : ∃ b, material (elems h1 el) = Some b).
  { destruct (shift_last_is_Some (chain_object_material h self) _ _ Hmats_last)
      as [b Hb].
    exists b. pose proof (f_equal head Hm1) as Hl.
    rewrite head_reverse, Hb in Hl.
    unfold chain_materials in Hl at 1.
    rewrite head_fmap, Hhead1 in Hl. simpl in Hl. congruence. }
  destruct Hml1 as [b Hml1].
  assert (Hel1 : origin (elems h1 el) = chain_image_origin h self).
  { pose proof (f_equal head Ho1) as Hl.
    rewrite (shift_head _ _ (origin (elems h el))) in Hl
      by (by rewrite head_reverse).
    unfold chain_origins in Hl at 1.
    rewrite head_fmap, Hhead1 in Hl. simpl in Hl. congruence. }
  destruct (revert_effect h1 self el ef b (chain_object_material h self)
              Hnodup1 Hhead1 Hml1 Hlast1 Hmf1)
    as (h2 & Hr2 & Hes2 & Hom2 & Hio2 & Hm2 & Ho2).
  assert (Hes : elements (systems h2 self) = elements (systems h self))
    by (by rewrite Hes2, Hes1, reverse_involutive).
  assert (Hmats : chain_materials h2 self = chain_materials h self).
  { rewrite Hm2, Hom1, Hm1, <- Hml_out, shift_reverse. simpl.
    apply reverse_involutive. }
  assert (Horigs : chain_origins h2 self = chain_origins h self).
  { rewrite Ho2, Hio1, Ho1, <- Hof_out, shift_reverse. simpl.
    apply reverse_involutive. }
  exists h1, h2. repeat split; try done.
  - unfold chain_origins in Horigs. rewrite Hes in Horigs.
    assert (Hp := fmap_eq_pointwise _ _ _ Horigs e H). simpl in Hp.
    congruence.
  - unfold chain_materials in Hmats. rewrite Hes in Hmats.
    exact (fmap_eq_pointwise _ _ _ Hmats e H).
  - fold (chain_image_origin h2 self). by rewrite Hio2, Hel1.
Qed.

End RevertFacts.

(** C1, as stated, fails on a chain that holds the same element object
    twice: both calls return, and the object ends with the material of the
    element and the image with the origin of the element. *)
Lemma revert_twice_changes_repeated_element :
  ∃ h2,
    @revert_twice drift_layer (sample_heap [0; 0]) 0 = Ok h2
    ∧ elements (systems h2 0) = [0; 0]
    ∧ chain_object_material (sample_heap [0; 0]) 0 = air
    ∧ chain_object_material h2 0 = crown
    ∧ chain_image_origin (sample_heap [0; 0]) 0
      = (0%float, 0%float, 20%float)
    ∧ chain_image_origin h2 0 = (0%float, 0%float, 10%float)
    ∧ chain_object_material h2 0
      ≠ chain_object_material (sample_heap [0; 0]) 0.
Proof.
  eexists. split; [vm_compute; reflexivity|].
  repeat split; try reflexivity.
  vm_compute. discriminate.
Qed.

(** Further chains on which the two calls do not restore the system: on an
    empty chain the first call raises [IndexError]; with a stop that has no
    material in front, the first call reverses the chain and the second
    raises [AttributeError]. *)
Example revert_empty_chain_raises :
  @revert drift_layer (sample_heap []) 0 = Raise IndexError.
Proof. reflexivity. Qed.

Example revert_front_stop_second_call_raises :
  ∃ h1,
    @revert drift_layer (sample_heap [1; 0]) 0 = Ok h1
    ∧ elements (systems h1 0) = [0; 1]
    ∧ @revert drift_layer h1 0 = Raise AttributeError.
Proof.
  eexists. split; [vm_compute; reflexivity|].
  split; reflexivity.
Qed.

Lemma revert_twice_restores_witness :
  ∃ h1 h2,
    @revert drift_layer triplet_heap 0 = Ok h1
    ∧ @revert drift_layer h1 0 = Ok h2
    ∧ elements (systems h1 0) = reverse (elements (systems triplet_heap 0))
    ∧ elements (systems h2 0) = elements (systems triplet_heap 0)
    ∧ (∀ e, e ∈ elements (systems triplet_heap 0) →
            origin (elems h2 e) = origin (elems triplet_heap e)
            ∧ material (elems h2 e) = material (elems triplet_heap e))
    ∧ image_origin (images h2 (image (systems h2 0)))
      = image_origin (images triplet_heap (image (systems triplet_heap 0)))
    ∧ object_material (objects h2 (object (systems h2 0)))
      = object_material
          (objects triplet_heap (object (systems triplet_heap 0))).
Proof.
  apply (@revert_twice_restores drift_layer
           (fun e => eq_refl) (fun e => eq_refl) triplet_heap 0).
  - simpl. repeat constructor; intros Hin;
      repeat (apply elem_of_cons in Hin as [Hin|Hin]; [discriminate|]);
      by apply elem_of_nil in Hin.
  - exists 0, crown. split; reflexivity.
  - exists 2, flint. split; reflexivity.
Defined.

(** * Further properties *)

(** ** Propagation, pair by pair *)

Section PropagationThreading.
Context `{EL : ElementLayer}.

(** X1: [propagate_through] is the chain of the second results of
    [propagate] of the elements and then of the image; the object's own
    [propagate] is never run. *)
Theorem propagate_through_fold (h : Heap) (self : loc) (rays : Rays) :
  propagate_through h self rays
  = foldl (fun r b => snd (element_propagate h b r)) rays
          ((ElementRef <$> elements (systems h self))
           ++ [ImageRef (image (systems h self))]).
Proof. apply propagate_through_rays_after. Qed.

(** X2: the rays yielded with the [k]-th element of the chain (the object
    at [0]) are the first result of [propagate] of the next element, run on
    the rays that left the elements before it. *)
Theorem propagate_pair_rays (h : Heap) (self : loc) (rays : Rays)
        (k : nat) (a b : node) :
  (ObjectRef (object (systems h self))
     :: (ElementRef <$> elements (systems h self))) !! k = Some a →
  ((ElementRef <$> elements (systems h self))
     ++ [ImageRef (image (systems h self))]) !! k = Some b →
  propagate h self rays !! k
  = Some (a, fst (element_propagate h b
                    (foldl (fun r b' => snd (element_propagate h b' r)) rays
                       (take k ((ElementRef <$> elements (systems h self))
                                ++ [ImageRef (image (systems h self))]))))).
Proof. apply propagate_pair_rays_lookup. Qed.

End PropagationThreading.

Lemma propagate_pair_rays_witness :
  @propagate drift_layer triplet_heap 0 launched_rays !! 2
  = Some (ElementRef 1,
          fst (@element_propagate drift_layer triplet_heap (ElementRef 2)
                 (@rays_after drift_layer triplet_heap
                    (take 2 ((ElementRef <$> elements (systems triplet_heap 0))
                             ++ [ImageRef (image (systems triplet_heap 0))]))
                    launched_rays))).
Proof.
  apply (@propagate_pair_rays drift_layer triplet_heap 0 launched_rays 2
           (ElementRef 1) (ElementRef 2)); reflexivity.
Defined.

(** ** Concatenation, composed with propagation *)

(** X4: what [propagate] visits on [S1 + S2]: the object of [S1], the
    elements of [S1], the elements of [S2], the image of [S1]; the object and
    the image of [S2] take no part, and [propagate_through] runs the two
    chains one after the other. *)
Theorem propagate_after_add `{EL : ElementLayer}
        (h : Heap) (s1 s2 : loc) (rays : Rays) :
  (propagate (fst (__add__ h s1 s2)) (snd (__add__ h s1 s2)) rays).*1
  = ObjectRef (object (systems h s1))
      :: (ElementRef <$> elements (systems h s1))
      ++ (ElementRef <$> elements (systems h s2))
      ++ [ImageRef (image (systems h s1))]
  ∧ propagate_through (fst (__add__ h s1 s2)) (snd (__add__ h s1 s2)) rays
    = snd (element_propagate (fst (__add__ h s1 s2))
             (ImageRef (image (systems h s1)))
             (rays_after (fst (__add__ h s1 s2))
                (ElementRef <$> elements (systems h s2))
                (rays_after (fst (__add__ h s1 s2))
                   (ElementRef <$> elements (systems h s1)) rays))).
Proof.
  assert (Ho : object (systems (fst (__add__ h s1 s2)) s1)
               = object (systems h s1))
    by (unfold __add__; simpl; by rewrite fn_lookup_alter).
  assert (Hi : image (systems (fst (__add__ h s1 s2)) s1)
               = image (systems h s1))
    by (unfold __add__; simpl; by rewrite fn_lookup_alter).
  rewrite add_returns_self. split.
  - rewrite propagate_nodes, add_elements_self, Ho, Hi, fmap_app.
    by rewrite <- app_assoc.
  - rewrite propagate_through_rays_after, add_elements_self, Hi, fmap_app.
    unfold rays_after. by rewrite !foldl_app.
Qed.

(** X5: adding a system with an empty chain changes no system. *)
Theorem add_empty_chain (h : Heap) (s1 s2 : loc) :
  elements (systems h s2) = [] →
  ∀ l, systems (fst (__add__ h s1 s2)) l = systems h l.
Proof.
  intros Hempty l. unfold __add__. simpl. rewrite Hempty, app_nil_r.
  destruct (decide (s1 = l)) as [->|Hne].
  - rewrite fn_lookup_alter. by destruct (systems h l).
  - by rewrite fn_lookup_alter_ne.
Qed.

Lemma add_empty_chain_witness :
  elements (systems (sample_heap []) 0) = []
  ∧ systems (fst (__add__ (sample_heap []) 1 0)) 1
    = systems (sample_heap []) 1.
Proof.
  split; [reflexivity|].
  apply (add_empty_chain (sample_heap []) 1 0). reflexivity.
Defined.

(** ** One call of [revert] *)

Lemma shift_keeps {A : Type} (m : A) (l : list (option A)) :
  omap id (shift m l).1 ++ [(shift m l).2] = m :: omap id l.
Proof.
  revert m. induction l as [|[a|] l IH]; intros m; simpl; [done|..].
  - specialize (IH a). destruct (shift a l) as [r m']. simpl in *.
    f_equal. exact IH.
  - specialize (IH m). destruct (shift m l) as [r m']. simpl in *.
    exact IH.
Qed.

Lemma omap_reverse {A B : Type} (f : A → option B) (l : list A) :
  omap f (reverse l) = reverse (omap f l).
Proof.
  induction l as [|a l IH]; [done|].
  rewrite reverse_cons, omap_app, IH. simpl.
  destruct (f a); simpl; [by rewrite reverse_cons|by rewrite app_nil_r].
Qed.

Lemma omap_id_fmap_Some {A B : Type} (f : A → B) (l : list A) :
  omap id ((fun a => Some (f a)) <$> l) = f <$> l.
Proof. induction l as [|a l IH]; [done|]. simpl. f_equal. exact IH. Qed.

Section RevertOnce.
Context `{EL : ElementLayer}.

(** A returning call: the chain has a last element, which has a material,
    and the store is the one [revert_Ok] describes. *)
Lemma revert_Ok_inv (h h1 : Heap) (self : loc) :
  revert h self = Ok h1 →
  ∃ e_first e_last m_last,
    head (elements (systems h self)) = Some e_first
    ∧ last (elements (systems h self)) = Some e_last
    ∧ material (elems h e_last) = Some m_last
    ∧ h1 = mkHeap
             (alter (set_elements (reverse (elements (systems h self)))) self
                    (systems h))
             (alter (set_object_material m_last) (object (systems h self))
                    (objects h))
             (revert_origins
                (revert_materials
                   (elems h)
                   (object_material (objects h (object (systems h self))))
                   (elements (systems h self))).1
                (image_origin (images h (image (systems h self))))
                (reverse (elements (systems h self)))).1
             (alter (set_image_origin (origin (elems h e_first)))
                    (image (systems h self)) (images h)).
Proof.
  intros Hrun.
  destruct (last (elements (systems h self))) as [e_last|] eqn:Hlast;
    [|by unfold revert in Hrun; rewrite Hlast in Hrun].
  destruct (material (elems h e_last)) as [m_last|] eqn:Hmat;
    [|by unfold revert in Hrun; rewrite Hlast, Hmat in Hrun].
  destruct (head (elements (systems h self))) as [e_first|] eqn:Hhead.
  - exists e_first, e_last, m_last. repeat split; try done.
    rewrite (revert_Ok h self e_first e_last m_last Hhead Hlast Hmat) in Hrun.
    by injection Hrun.
  - apply head_None in Hhead. by rewrite Hhead in Hlast.
Qed.

(** X6: [revert] returns exactly when the chain has a last element and that
    element has a material; on an empty chain it raises [IndexError], on a
    chain ending with an element without material [AttributeError]. *)
Theorem revert_returns_iff (h : Heap) (self : loc) :
  ((∃ h1, revert h self = Ok h1)
   ↔ ∃ e m, last (elements (systems h self)) = Some e
            ∧ material (elems h e) = Some m)
  ∧ (elements (systems h self) = [] → revert h self = Raise IndexError)
  ∧ (∀ e, last (elements (systems h self)) = Some e →
          material (elems h e) = None →
          revert h self = Raise AttributeError).
Proof.
  split; [split|split].
  - intros [h1 Hrun].
    destruct (revert_Ok_inv _ _ _ Hrun) as (ef & el & ml & _ & Hl & Hm & _).
    by exists el, ml.
  - intros (e & m & Hl & Hm).
    destruct (head (elements (systems h self))) as [ef|] eqn:Hhead.
    + eexists. by eapply revert_Ok.
    + apply head_None in Hhead. by rewrite Hhead in Hl.
  - intros Hnil. unfold revert. by rewrite Hnil.
  - intros e Hl Hm. unfold revert. by rewrite Hl, Hm.
Qed.

(** X7: what a returning [revert] leaves alone: every other system, the
    fields of the system other than the order of its elements, every element
    outside the chain, every other object and image, and the radius and
    field angle of its object and the radius of its image. *)
Theorem revert_frame (h h1 : Heap) (self : loc) :
  revert h self = Ok h1 →
  (∀ l, l ≠ self → systems h1 l = systems h l)
  ∧ systems h1 self
    = set_elements (reverse (elements (systems h self))) (systems h self)
  ∧ (∀ e, e ∉ elements (systems h self) → elems h1 e = elems h e)
  ∧ (∀ o, o ≠ object (systems h self) → objects h1 o = objects h o)
  ∧ (∀ i, i ≠ image (systems h self) → images h1 i = images h i)
  ∧ object_radius (objects h1 (object (systems h self)))
    = object_radius (objects h (object (systems h self)))
  ∧ field_angle (objects h1 (object (systems h self)))
    = field_angle (objects h (object (systems h self)))
  ∧ image_radius (images h1 (image (systems h self)))
    = image_radius (images h (image (systems h self))).
Proof.
  intros Hrun.
  destruct (revert_Ok_inv _ _ _ Hrun) as (ef & el & ml & _ & _ & _ & ->).
  simpl. repeat split.
  - intros l Hl. by rewrite fn_lookup_alter_ne.
  - by rewrite fn_lookup_alter.
  - intros e He. rewrite revert_origins_frame
      by (by rewrite elem_of_reverse).
    by apply revert_materials_frame.
  - intros o Ho. by rewrite fn_lookup_alter_ne.
  - intros i Hi. by rewrite fn_lookup_alter_ne.
  - by rewrite fn_lookup_alter.
  - by rewrite fn_lookup_alter.
  - by rewrite fn_lookup_alter.
Qed.

(** X8: a returning [revert] on a chain without repeated element reverses
    the sequence of origins "elements, then image", provided the elements'
    own [revert] keeps their origin: each element takes the origin of the
    one that followed it. *)
Theorem revert_reverses_origins (h h1 : Heap) (self : loc) :
  (∀ e : Element, origin (element_revert e) = origin e) →
  NoDup (elements (systems h self)) →
  revert h self = Ok h1 →
  elements (systems h1 self) = reverse (elements (systems h self))
  ∧ ((fun e => origin (elems h1 e)) <$> elements (systems h1 self))
      ++ [image_origin (images h1 (image (systems h1 self)))]
    = reverse (((fun e => origin (elems h e)) <$> elements (systems h self))
               ++ [image_origin (images h (image (systems h self)))]).
Proof.
  intros Hkeep Hnodup Hrun.
  destruct (revert_Ok_inv _ _ _ Hrun)
    as (ef & el & ml & Hhead & Hlast & Hmat & ->).
  simpl. rewrite !fn_lookup_alter. simpl. split; [done|].
  assert (Hrev : NoDup (reverse (elements (systems h self))))
    by (by rewrite reverse_Permutation).
  pose proof (revert_origins_shift Hkeep _ Hrev
                (revert_materials (elems h)
                   (object_material (objects h (object (systems h self))))
                   (elements (systems h self))).1
                (image_origin (images h (image (systems h self))))) as Hs.
  rewrite (list_fmap_ext
             (fun e => Some (origin ((revert_materials (elems h)
                   (object_material (objects h (object (systems h self))))
                   (elements (systems h self))).1 e)))
             (fun e => Some (origin (elems h e)))
             (reverse (elements (systems h self)))) in Hs
    by (intros i e _; f_equal; apply revert_materials_origin).
  set (L := (fun e => Some (origin (elems h e)))
              <$> reverse (elements (systems h self))) in *.
  assert (Hout : (shift (image_origin (images h (image (systems h self)))) L).2
                 = origin (elems h ef)).
  { apply shift_last. unfold L. by rewrite fmap_last, last_reverse, Hhead. }
  pose proof (f_equal fst Hs) as Hs1. simpl in Hs1.
  rewrite <- (omap_id_fmap_Some _ (reverse (elements (systems h self)))).
  cbv beta. rewrite Hs1, <- Hout, shift_keeps.
  unfold L. rewrite omap_id_fmap_Some, fmap_reverse.
  by rewrite reverse_app.
Qed.

(** X9: on the same chains, with elements whose own [revert] keeps their
    material, a returning [revert] reverses the sequence of materials "object,
    then the elements that have one": the object takes the last material and
    each element the material that preceded its own. *)
Theorem revert_reverses_materials (h h1 : Heap) (self : loc) :
  (∀ e : Element, material (element_revert e) = material e) →
  NoDup (elements (systems h self)) →
  revert h self = Ok h1 →
  object_material (objects h1 (object (systems h1 self)))
    :: omap (fun e => material (elems h1 e)) (elements (systems h1 self))
  = reverse (object_material (objects h (object (systems h self)))
               :: omap (fun e => material (elems h e))
                       (elements (systems h self))).
Proof.
  intros Hkeep Hnodup Hrun.
  destruct (revert_Ok_inv _ _ _ Hrun)
    as (ef & el & ml & Hhead & Hlast & Hmat & ->).
  simpl. rewrite !fn_lookup_alter. simpl.
  pose proof (revert_materials_shift _ Hnodup (elems h)
                (object_material (objects h (object (systems h self)))))
    as Hs.
  set (m0 := object_material (objects h (object (systems h self)))) in *.
  set (L := (fun e => material (elems h e)) <$> elements (systems h self))
    in *.
  assert (Hout : (shift m0 L).2 = ml).
  { apply shift_last. unfold L. by rewrite fmap_last, Hlast; simpl;
      rewrite Hmat. }
  assert (Homap : ∀ (st : loc → Element) (l : list loc),
            omap (fun e => material (st e)) l
            = omap id ((fun e => material (st e)) <$> l)).
  { intros st l. induction l as [|a l IH]; [done|]. simpl.
    destruct (material (st a)); simpl; [f_equal|]; exact IH. }
  rewrite (Homap _ (reverse _)).
  rewrite (list_fmap_ext _ (fun e => material
             ((revert_materials (elems h) m0
                 (elements (systems h self))).1 e)))
    by (intros i e _; apply (revert_origins_material Hkeep)).
  pose proof (f_equal fst Hs) as Hs1. simpl in Hs1.
  rewrite fmap_reverse, Hs1.
  rewrite omap_reverse, <- Hout.
  rewrite <- (reverse_involutive ((shift m0 L).2 :: _)).
  f_equal. rewrite reverse_cons, reverse_involutive, shift_keeps.
  unfold L. by rewrite <- Homap.
Qed.

End RevertOnce.

Lemma revert_frame_witness :
  ∃ h1,
    @revert drift_layer triplet_heap 0 = Ok h1
    ∧ (∀ l, l ≠ 0 → systems h1 l = systems triplet_heap l)
    ∧ (∀ e, e ∉ elements (systems triplet_heap 0) →
            elems h1 e = elems triplet_heap e).
Proof.
  eexists. split; [vm_compute; reflexivity|].
  match goal with
  | |- context [systems ?h1 _ = _] =>
      destruct (@revert_frame drift_layer triplet_heap h1 0)
        as (Hs & _ & He & _)
  end.
  - vm_compute. reflexivity.
  - split; [exact Hs|exact He].
Defined.

Lemma revert_reverses_origins_witness :
  ∃ h1,
    @revert drift_layer triplet_heap 0 = Ok h1
    ∧ ((fun e => origin (elems h1 e)) <$> elements (systems h1 0))
        ++ [image_origin (images h1 (image (systems h1 0)))]
      = [(0%float, 0%float, 20%float); (0%float, 0%float, 3%float);
         (0%float, 0%float, 5%float); (0%float, 0%float, 10%float)].
Proof.
  eexists. split; [vm_compute; reflexivity|].
  match goal with
  | |- context [systems ?h1 _] =>
      destruct (@revert_reverses_origins drift_layer triplet_heap h1 0)
        as [_ Ho]
  end.
  - reflexivity.
  - simpl. repeat constructor; intros Hin;
      repeat (apply elem_of_cons in Hin as [Hin|Hin]; [discriminate|]);
      by apply elem_of_nil in Hin.
  - vm_compute. reflexivity.
  - rewrite Ho. reflexivity.
Defined.

Lemma revert_reverses_materials_witness :
  ∃ h1,
    @revert drift_layer triplet_heap 0 = Ok h1
    ∧ object_material (objects h1 (object (systems h1 0)))
        :: omap (fun e => material (elems h1 e)) (elements (systems h1 0))
      = [flint; crown; air].
Proof.
  eexists. split; [vm_compute; reflexivity|].
  match goal with
  | |- context [systems ?h1 _] =>
      pose proof (@revert_reverses_materials drift_layer triplet_heap h1 0)
        as Hm
  end.
  rewrite Hm.
  - reflexivity.
  - reflexivity.
  - simpl. repeat constructor; intros Hin;
      repeat (apply elem_of_cons in Hin as [Hin|Hin]; [discriminate|]);
      by apply elem_of_nil in Hin.
  - vm_compute. reflexivity.
Defined.

(** ** The objective function: short vectors, and reading back *)

Lemma zip_take_length {A B : Type} (l : list A) (k : list B) :
  zip l k = zip (take (length k) l) k.
Proof.
  revert k. induction l as [|a l IH]; intros [|b k]; simpl; try done.
  by rewrite <- IH.
Qed.

Section ObjectiveMore.
Context `{EL : ElementLayer} `{TL : TraceLayer}.

Lemma write_parameters_any (self : loc) (ps : list OptParameter)
      (x : list float) (k : nat) (h : Heap) :
  k ≤ length x →
  write_parameters h self (imap (fun i p => (k + i, p)) ps) x
  = (if decide (length ps + k ≤ length x) then Ok tt else Raise IndexError,
     foldl (fun h' (px : OptParameter * float) =>
              set_value (fst px) h' self (snd px))
           h (zip ps (drop k x))).
Proof.
  revert k h. induction ps as [|p ps IH]; intros k h Hk0.
  - simpl. by rewrite decide_True by (simpl; lia).
  - rewrite imap_cons. simpl. rewrite Nat.add_0_r.
    destruct (x !! k) as [xi|] eqn:Hk.
    + rewrite (drop_S _ _ _ Hk). simpl.
      rewrite (imap_ext _ (fun i q => (S k + i, q)))
        by (intros i q _; simpl; f_equal; lia).
      apply lookup_lt_Some in Hk.
      rewrite IH by lia. f_equal.
      destruct (decide (length ps + S k ≤ length x)),
               (decide (S (length ps + k) ≤ length x)); try done; lia.
    + apply lookup_ge_None in Hk.
      rewrite decide_False by lia.
      by rewrite drop_ge by done.
Qed.

Lemma objective_function_state (h : Heap) (self : loc) (rays : list Rays)
      (parameters : list OptParameter) (demerits : list Demerit)
      (x : list float) :
  snd (objective_function h self rays parameters demerits x)
  = written_system h self parameters x.
Proof.
  unfold objective_function, enumerate.
  pose proof (write_parameters_any self parameters x 0 h) as Hw.
  simpl in Hw. rewrite Hw, drop_0 by lia.
  by destruct (decide (length parameters + 0 ≤ length x)).
Qed.

(** X13: when [x] has fewer entries than there are parameters, the
    objective function raises [IndexError], and it does so after having
    written the parameters that do have an entry: the system is left with
    the first [len(x)] parameters set. *)
Theorem objective_function_short_vector
        (h : Heap) (self : loc) (rays : list Rays)
        (parameters : list OptParameter) (demerits : list Demerit)
        (x : list float) :
  length x < length parameters →
  objective_function h self rays parameters demerits x
  = (Raise IndexError,
     written_system h self (take (length x) parameters) x).
Proof.
  intros Hlen. unfold objective_function, enumerate.
  pose proof (write_parameters_any self parameters x 0 h) as Hw.
  simpl in Hw. rewrite Hw, drop_0 by lia.
  rewrite decide_False by lia. f_equal.
  unfold written_system. f_equal. apply zip_take_length.
Qed.

(** Later writes of independent parameters leave a reading alone. *)
Lemma get_value_after_writes (self : loc) (p : OptParameter)
      (ps : list OptParameter) (x : list float) (h : Heap) :
  Forall (fun q => ∀ h' v, get_value p (set_value q h' self v) self
                           = get_value p h' self) ps →
  get_value p (written_system h self ps x) self = get_value p h self.
Proof.
  unfold written_system. revert x h.
  induction ps as [|q ps IH]; intros x h Hind; [done|].
  apply Forall_cons in Hind as [Hq Hind].
  destruct x as [|v x]; [done|]. simpl.
  rewrite IH by done. apply Hq.
Qed.

Lemma written_system_reads_back (self : loc) (ps : list OptParameter)
      (x : list float) (h : Heap) :
  (∀ p, p ∈ ps → ∀ h' v,
        get_value p (set_value p h' self v) self = v) →
  (∀ i j p q, i ≠ j → ps !! i = Some p → ps !! j = Some q →
              ∀ h' v, get_value p (set_value q h' self v) self
                      = get_value p h' self) →
  ∀ i p v, ps !! i = Some p → x !! i = Some v →
           get_value p (written_system h self ps x) self = v.
Proof.
  revert x h. induction ps as [|p0 ps IH]; intros x h Hgs Hind i p v Hp Hv;
    [done|].
  destruct x as [|v0 x]; [done|].
  destruct i as [|i]; simpl in Hp, Hv.
  - injection Hp as ->. injection Hv as ->.
    change (written_system h self (p :: ps) (v :: x))
      with (written_system (set_value p h self v) self ps x).
    rewrite get_value_after_writes.
    + apply Hgs. by left.
    + apply Forall_lookup. intros j q Hq h' v'.
      by apply (Hind 0 (S j)).
  - change (written_system h self (p0 :: ps) (v0 :: x))
      with (written_system (set_value p0 h self v0) self ps x).
    apply (IH x _) with (i := i); try done.
    + intros q Hq. apply Hgs. by right.
    + intros i' j' p' q' Hne Hp' Hq'.
      apply (Hind (S i') (S j')); [lia|done..].
Qed.

(** X14: reading back after an evaluation.  When every parameter reads
    what was last written through it, and writing through one parameter does
    not change what another one reads, then after [objective_function(x)]
    the [i]-th parameter reads [x[i]], whatever the demerits returned or
    raised. *)
Theorem objective_function_reads_back
        (h : Heap) (self : loc) (rays : list Rays)
        (parameters : list OptParameter) (demerits : list Demerit)
        (x : list float) :
  (∀ p, p ∈ parameters → ∀ h' v,
        get_value p (set_value p h' self v) self = v) →
  (∀ i j p q, i ≠ j → parameters !! i = Some p → parameters !! j = Some q →
              ∀ h' v, get_value p (set_value q h' self v) self
                      = get_value p h' self) →
  ∀ i p v, parameters !! i = Some p → x !! i = Some v →
           get_value p (snd (objective_function h self rays parameters
                                                demerits x)) self = v.
Proof.
  intros Hgs Hind i p v Hp Hv. rewrite objective_function_state.
  by eapply written_system_reads_back.
Qed.

End ObjectiveMore.

Lemma objective_function_short_vector_witness :
  length [0.1%float] < length [curvature_of 0; curvature_of 2]
  ∧ @objective_function drift_layer count_trace triplet_heap 0
      [launched_rays] [curvature_of 0; curvature_of 2] [spot_demerit]
      [0.1%float]
    = (Raise IndexError,
       @written_system triplet_heap 0 (take 1 [curvature_of 0; curvature_of 2])
                       [0.1%float]).
Proof.
  assert (Hlen : length [0.1%float] < length [curvature_of 0; curvature_of 2])
    by (simpl; lia).
  split; [exact Hlen|].
  exact (@objective_function_short_vector drift_layer count_trace
           triplet_heap 0 [launched_rays] [curvature_of 0; curvature_of 2]
           [spot_demerit] [0.1%float] Hlen).
Defined.

Lemma curvature_of_reads_back (l : loc) (self : loc) (h : Heap) (v : float) :
  get_value (curvature_of l) (set_value (curvature_of l) h self v) self = v.
Proof. simpl. by rewrite fn_lookup_alter. Qed.

Lemma curvature_of_independent (l l' : loc) (self : loc) (h : Heap)
      (v : float) :
  l ≠ l' →
  get_value (curvature_of l) (set_value (curvature_of l') h self v) self
  = get_value (curvature_of l) h self.
Proof. intros Hne. simpl. by rewrite fn_lookup_alter_ne. Qed.

Lemma objective_function_reads_back_witness :
  get_value (curvature_of 2)
    (snd (@objective_function drift_layer count_trace triplet_heap 0
            [launched_rays] [curvature_of 0; curvature_of 2] [spot_demerit]
            [0.1%float; 0.2%float])) 0
  = 0.2%float.
Proof.
  apply (@objective_function_reads_back drift_layer count_trace
           triplet_heap 0 [launched_rays] [curvature_of 0; curvature_of 2]
           [spot_demerit] [0.1%float; 0.2%float]) with (i := 1).
  - intros p Hp h' v.
    apply elem_of_cons in Hp as [->|Hp];
      [apply curvature_of_reads_back|].
    apply elem_of_cons in Hp as [->|Hp];
      [apply curvature_of_reads_back|by apply elem_of_nil in Hp].
  - intros i j p q Hne Hp Hq h' v.
    destruct i as [|[|i]], j as [|[|j]]; simpl in Hp, Hq;
      try discriminate; try done;
      injection Hp as <-; injection Hq as <-;
      by apply curvature_of_independent.
  - reflexivity.
  - reflexivity.
Defined.

(** ** Paraxial propagation *)

Section ParaxialFacts.
Context `{PL : ParaxialLayer}.

Lemma imap_shift_index {A : Type} (k : nat) (l : list A) :
  imap ((fun i a => (k + i, a)) ∘ S) l = imap (fun i a => (S k + i, a)) l.
Proof. apply imap_ext. intros i a _. simpl. f_equal. lia. Qed.

Lemma propagate_paraxial_loop_steps (h : Heap) (es : list loc) (k : nat)
      (i : option nat) (rays : ParaxialRays) :
  propagate_paraxial_loop h (imap (fun i e => (k + i, e)) es) i rays
  = (match es with
     | [] => i
     | _ :: _ => Some (k + length es - 1)
     end,
     paraxial_steps true h (k + 1) es rays).
Proof.
  revert k i rays. induction es as [|e es IH]; intros k i rays; [done|].
  rewrite imap_cons, imap_shift_index. cbn [propagate_paraxial_loop].
  rewrite IH. unfold paraxial_steps. simpl.
  rewrite !Nat.add_0_r. replace (S k + 1) with (S (k + 1)) by lia.
  f_equal. destruct es; simpl; f_equal; lia.
Qed.

(** X15: [propagate_paraxial] numbers the elements from 1 and the image with
    the number of elements plus one; on an empty chain the index is unbound
    when the image is reached, the call raises and the image is not
    traced. *)
Theorem propagate_paraxial_indices (h : Heap) (self : loc)
        (rays : ParaxialRays) :
  (elements (systems h self) = [] →
   propagate_paraxial h self rays = UnboundLocalError)
  ∧ (elements (systems h self) ≠ [] →
     propagate_paraxial h self rays
     = Traced (image_propagate_paraxial h (image (systems h self))
                 (length (elements (systems h self)) + 1)
                 (paraxial_steps true h 1 (elements (systems h self)) rays))).
Proof.
  unfold propagate_paraxial, enumerate.
  pose proof (propagate_paraxial_loop_steps h (elements (systems h self))
                0 None rays) as Hloop.
  simpl in Hloop. rewrite Hloop. split.
  - intros Hnil. by rewrite Hnil.
  - intros Hne. destruct (elements (systems h self)) as [|e es]; [done|].
    simpl. do 2 f_equal. lia.
Qed.

(** X16: [height_at_aperture_paraxial] returns [None] on an empty chain,
    with the rays untouched.  On any other chain it traces the rays through
    the first element and raises [NameError] at the test that follows: no
    height is read and no further element is traced. *)
Theorem height_at_aperture_paraxial_outcome (h : Heap) (self : loc)
        (rays : ParaxialRays) :
  (elements (systems h self) = [] →
   height_at_aperture_paraxial h self rays = (Ok None, rays))
  ∧ (∀ e es,
       elements (systems h self) = e :: es →
       height_at_aperture_paraxial h self rays
       = (Raise NameError, element_propagate_paraxial h e 1 rays)).
Proof.
  unfold height_at_aperture_paraxial. split.
  - by intros ->.
  - by intros e es ->.
Qed.

End ParaxialFacts.

(** ** The optimisation driver *)

Lemma filter_bool_filter {A : Type} (f : A → bool) (l : list A) :
  List.filter f l = filter (fun a => f a = true) l.
Proof.
  induction l as [|a l IH]; [done|].
  simpl. rewrite filter_cons. destruct (f a) eqn:Hf.
  - rewrite decide_True by done. by rewrite IH.
  - rewrite decide_False by (by intros ?). done.
Qed.

Section OptimizeDriverFacts.
Context `{EL : ElementLayer} `{TL : TraceLayer} `{SV : Solver}.

Lemma function_or_None_Some {F : Type} (cs : list Constraint) (f g : F) :
  function_or_None cs f = Some g → cs ≠ [] ∧ g = f.
Proof. destruct cs; [discriminate|]. by intros [= <-]. Qed.

Lemma constraints_function_Ok (self : loc) (cs : list Constraint)
      (x : list float) (h : Heap) :
  cs ≠ [] →
  constraints_function self cs x h
  = Ok (mjoin ((fun c => constraint_call c h self) <$> cs)).
Proof.
  intros Hne. unfold constraints_function, np_concatenate.
  destruct cs as [|c cs]; [done|]. simpl. by rewrite concat_mjoin.
Qed.

(** X19: the constraint functions handed to the solver.  The inequality
    function is [None] exactly when every constraint is an equality, the
    equality function is [None] exactly when none is; a function that is
    handed over never raises: whatever [x], it returns the concatenation, in
    order, of the outputs of its constraints evaluated on the system as it
    stands (the argument [x] is never written into the system). *)
Theorem optimize_constraint_functions
        (h : Heap) (self : loc) (rays : list Rays)
        (parameters : list OptParameter) (demerits : list Demerit)
        (constraints : list Constraint) :
  (nlp_c (optimize_problem h self rays parameters demerits constraints)
   = None
   ↔ Forall (fun c => equality c = true) constraints)
  ∧ (nlp_h (optimize_problem h self rays parameters demerits constraints)
     = None
     ↔ Forall (fun c => equality c = false) constraints)
  ∧ (∀ f, nlp_c (optimize_problem h self rays parameters demerits
                                  constraints) = Some f →
          ∀ x h',
            f x h'
            = Ok (mjoin ((fun c => constraint_call c h' self)
                           <$> filter (fun c => equality c = false)
                                      constraints)))
  ∧ (∀ f, nlp_h (optimize_problem h self rays parameters demerits
                                  constraints) = Some f →
          ∀ x h',
            f x h'
            = Ok (mjoin ((fun c => constraint_call c h' self)
                           <$> filter (fun c => equality c = true)
                                      constraints))).
Proof.
  assert (Hineq : List.filter (fun c => negb (equality c)) constraints
                  = filter (fun c => equality c = false) constraints).
  { rewrite filter_bool_filter. apply list_filter_iff.
    intros c. by destruct (equality c). }
  assert (Heq : List.filter equality constraints
                = filter (fun c => equality c = true) constraints)
    by apply filter_bool_filter.
  unfold optimize_problem. simpl. rewrite Hineq, Heq.
  repeat split.
  - intros Hnone.
    destruct (filter (fun c => equality c = false) constraints) eqn:Hf;
      [|discriminate].
    apply Forall_forall. intros c Hc.
    destruct (equality c) eqn:Hec; [done|].
    assert (Hin : c ∈ filter (fun c => equality c = false) constraints)
      by (by apply list_elem_of_filter).
    rewrite Hf in Hin. by apply elem_of_nil in Hin.
  - intros Hall.
    destruct (filter (fun c => equality c = false) constraints) as [|c l]
      eqn:Hf; [done|].
    assert (Hin : c ∈ filter (fun c => equality c = false) constraints)
      by (rewrite Hf; by left).
    apply list_elem_of_filter in Hin as [Hc Hin].
    rewrite Forall_forall in Hall. specialize (Hall c Hin). congruence.
  - intros Hnone.
    destruct (filter (fun c => equality c = true) constraints) eqn:Hf;
      [|discriminate].
    apply Forall_forall. intros c Hc.
    destruct (equality c) eqn:Hec; [|done].
    assert (Hin : c ∈ filter (fun c => equality c = true) constraints)
      by (by apply list_elem_of_filter).
    rewrite Hf in Hin. by apply elem_of_nil in Hin.
  - intros Hall.
    destruct (filter (fun c => equality c = true) constraints) as [|c l]
      eqn:Hf; [done|].
    assert (Hin : c ∈ filter (fun c => equality c = true) constraints)
      by (rewrite Hf; by left).
    apply list_elem_of_filter in Hin as [Hc Hin].
    rewrite Forall_forall in Hall. specialize (Hall c Hin). congruence.
  - intros f Hf x h'.
    apply function_or_None_Some in Hf as [Hne ->].
    by apply constraints_function_Ok.
  - intros f Hf x h'.
    apply function_or_None_Some in Hf as [Hne ->].
    by apply constraints_function_Ok.
Qed.

Lemma optimize_Ok_inv (h h2 : Heap) (self : loc) (rays : list Rays)
      (parameters : list OptParameter) (demerits : list Demerit)
      (constraints : list Constraint) (method : string)
      (x0 x : list float) (f : SolverValue) :
  optimize h self rays parameters demerits constraints method
  = (Ok (x0, x, f), h2) →
  ∃ h1,
    NLP_solve (optimize_problem h self rays parameters demerits constraints)
              method h = (Ok (x, f), h1)
    ∧ x0 = map (fun p => get_value p h self) parameters
    ∧ h2 = written_system h1 self parameters x.
Proof.
  unfold optimize.
  destruct (NLP_solve _ method h) as [[[x' f']|e] h1]; [|discriminate].
  pose proof (write_parameters_any self parameters x' 0 h1) as Hw.
  simpl in Hw. unfold enumerate. rewrite Hw, drop_0 by lia.
  destruct (decide (length parameters + 0 ≤ length x')); [|discriminate].
  intros [= <- <- <- <-]. by exists h1.
Qed.

(** X20: how [optimize] ends.  When the solver raises, so does [optimize],
    and the system stays as the solver's evaluations left it (the start
    values are not written back).  When the solver returns a vector with an
    entry for every parameter, [optimize] returns the start vector read from
    the system before the solve, the solver's vector and value, and leaves
    the system with that vector written through the parameters.  When the
    vector is too short, [optimize] raises [IndexError] after writing the
    parameters that have an entry. *)
Theorem optimize_outcome
        (h : Heap) (self : loc) (rays : list Rays)
        (parameters : list OptParameter) (demerits : list Demerit)
        (constraints : list Constraint) (method : string) :
  (∀ e h1,
     NLP_solve (optimize_problem h self rays parameters demerits constraints)
               method h = (Raise e, h1) →
     optimize h self rays parameters demerits constraints method
     = (Raise e, h1))
  ∧ (∀ x f h1,
       NLP_solve (optimize_problem h self rays parameters demerits
                                   constraints) method h
       = (Ok (x, f), h1) →
       length parameters ≤ length x →
       optimize h self rays parameters demerits constraints method
       = (Ok (map (fun p => get_value p h self) parameters, x, f),
          written_system h1 self parameters x))
  ∧ (∀ x f h1,
       NLP_solve (optimize_problem h self rays parameters demerits
                                   constraints) method h
       = (Ok (x, f), h1) →
       length x < length parameters →
       optimize h self rays parameters demerits constraints method
       = (Raise IndexError,
          written_system h1 self (take (length x) parameters) x)).
Proof.
  repeat split.
  - intros e h1 Hsolve. unfold optimize. by rewrite Hsolve.
  - intros x f h1 Hsolve Hlen. unfold optimize, enumerate. rewrite Hsolve.
    pose proof (write_parameters_any self parameters x 0 h1) as Hw.
    simpl in Hw. rewrite Hw, drop_0 by lia.
    by rewrite decide_True by lia.
  - intros x f h1 Hsolve Hlen. unfold optimize, enumerate. rewrite Hsolve.
    pose proof (write_parameters_any self parameters x 0 h1) as Hw.
    simpl in Hw. rewrite Hw, drop_0 by lia.
    rewrite decide_False by lia. f_equal.
    unfold written_system. f_equal. apply zip_take_length.
Qed.

(** X21: a returning [optimize] leaves the system at the vector it returns:
    when every parameter reads what was last written through it and writing
    through one parameter does not change what another reads, the [i]-th
    parameter reads [x[i]] afterwards. *)
Theorem optimize_leaves_optimum
        (h h2 : Heap) (self : loc) (rays : list Rays)
        (parameters : list OptParameter) (demerits : list Demerit)
        (constraints : list Constraint) (method : string)
        (x0 x : list float) (f : SolverValue) :
  (∀ p, p ∈ parameters → ∀ h' v,
        get_value p (set_value p h' self v) self = v) →
  (∀ i j p q, i ≠ j → parameters !! i = Some p → parameters !! j = Some q →
              ∀ h' v, get_value p (set_value q h' self v) self
                      = get_value p h' self) →
  optimize h self rays parameters demerits constraints method
  = (Ok (x0, x, f), h2) →
  ∀ i p v, parameters !! i = Some p → x !! i = Some v →
           get_value p h2 self = v.
Proof.
  intros Hgs Hind Hrun i p v Hp Hv.
  destruct (optimize_Ok_inv _ _ _ _ _ _ _ _ _ _ _ Hrun) as (h1 & _ & _ & ->).
  by eapply written_system_reads_back.
Qed.

End OptimizeDriverFacts.

Lemma optimize_leaves_optimum_witness :
  ∃ x0 x f h2,
    @optimize drift_layer count_trace one_evaluation_solver triplet_heap 0
      [launched_rays] [curvature_of 0; curvature_of 2] [spot_demerit] []
      "ralg" = (Ok (x0, x, f), h2)
    ∧ x !! 1 = Some (-0.02)%float
    ∧ get_value (curvature_of 2) h2 0 = (-0.02)%float.
Proof.
  destruct (@optimize drift_layer count_trace one_evaluation_solver
              triplet_heap 0 [launched_rays]
              [curvature_of 0; curvature_of 2] [spot_demerit] [] "ralg")
    as [[[[x0 x] f]|e] h2] eqn:Hrun.
  - assert (Hx : x !! 1 = Some (-0.02)%float).
    { vm_compute in Hrun. injection Hrun as _ <- _ _. reflexivity. }
    exists x0, x, f, h2. split; [done|]. split; [exact Hx|].
    apply (@optimize_leaves_optimum drift_layer count_trace
             one_evaluation_solver triplet_heap h2 0 [launched_rays]
             [curvature_of 0; curvature_of 2] [spot_demerit] [] "ralg"
             x0 x f) with (i := 1).
    + intros p Hp h' v.
      apply elem_of_cons in Hp as [->|Hp];
        [apply curvature_of_reads_back|].
      apply elem_of_cons in Hp as [->|Hp];
        [apply curvature_of_reads_back|by apply elem_of_nil in Hp].
    + intros i j p q Hne Hp Hq h' v.
      destruct i as [|[|i]], j as [|[|j]]; simpl in Hp, Hq;
        try discriminate; try done;
        injection Hp as <-; injection Hq as <-;
        by apply curvature_of_independent.
    + exact Hrun.
    + reflexivity.
    + exact Hx.
  - vm_compute in Hrun. discriminate.
Defined.

(** ** Ray bundles *)

Section BundleFacts.
Context `{EL : ElementLayer} `{RF : RootFinders} `{BL : BundleLayer}.

(** X22: [get_ray_bundle] builds no bundle, whatever the strategies: the
    aiming raises [AssertionError] on an empty chain and [NameError] on any
    other, so does the call, and nothing is printed. *)
Theorem get_ray_bundle_raises
        (h : Heap) (self : loc) (wavelength : float)
        (height : float * float) (number : nat)
        (paraxial_chief paraxial_marginal : bool) :
  get_ray_bundle h self wavelength height number
                 paraxial_chief paraxial_marginal
  = (Raise (match elements (systems h self) with
            | [] => AssertionError
            | _ :: _ => NameError
            end), []).
Proof.
  unfold get_ray_bundle. by rewrite chief_and_marginal_raises.
Qed.

End BundleFacts.

(** ** The objective as a function of the vector alone *)

Section ObjectiveHistory.
Context `{EL : ElementLayer} `{TL : TraceLayer}.

Lemma set_value_past_writes (self : loc) (p : OptParameter)
      (ps : list OptParameter) (x : list float) (h : Heap) (v : float) :
  Forall (fun q => ∀ h' a b,
            set_value p (set_value q h' self a) self b
            = set_value q (set_value p h' self b) self a) ps →
  set_value p (written_system h self ps x) self v
  = written_system (set_value p h self v) self ps x.
Proof.
  unfold written_system. revert x h.
  induction ps as [|q ps IH]; intros x h Hcomm; [done|].
  apply Forall_cons in Hcomm as [Hq Hcomm].
  destruct x as [|a x]; [done|]. simpl.
  rewrite IH by done. by rewrite Hq.
Qed.

Lemma written_system_overwrites (self : loc) (ps : list OptParameter)
      (x x' : list float) (h : Heap) :
  (∀ p, p ∈ ps → ∀ h' a b,
        set_value p (set_value p h' self a) self b = set_value p h' self b) →
  (∀ i j p q, i ≠ j → ps !! i = Some p → ps !! j = Some q →
              ∀ h' a b, set_value p (set_value q h' self a) self b
                        = set_value q (set_value p h' self b) self a) →
  length ps ≤ length x →
  written_system (written_system h self ps x') self ps x
  = written_system h self ps x.
Proof.
  revert x x' h.
  induction ps as [|p ps IH]; intros x x' h Hover Hcomm Hlen; [done|].
  destruct x as [|v x]; [simpl in Hlen; lia|].
  destruct x' as [|v' x']; [done|].
  change (written_system h self (p :: ps) (v' :: x'))
    with (written_system (set_value p h self v') self ps x').
  change (written_system ?g self (p :: ps) (v :: x))
    with (written_system (set_value p g self v) self ps x).
  rewrite set_value_past_writes.
  - rewrite Hover by (by left).
    apply IH.
    + intros q Hq. apply Hover. by right.
    + intros i j q r Hne Hq Hr. apply (Hcomm (S i) (S j)); [lia|done..].
    + simpl in Hlen. lia.
  - apply Forall_lookup. intros j q Hq h' a b.
    by apply (Hcomm 0 (S j)).
Qed.

(** X26: the objective depends on the vector alone.  When writing twice
    through a parameter keeps the last value and writes through different
    parameters commute, evaluating the objective at an [x] with an entry for
    every parameter after an earlier evaluation at any [x'] gives the same
    result and leaves the same system as evaluating it at [x] directly. *)
Theorem objective_function_history_independent
        (h : Heap) (self : loc) (rays : list Rays)
        (parameters : list OptParameter) (demerits : list Demerit)
        (x x' : list float) :
  (∀ p, p ∈ parameters → ∀ h' a b,
        set_value p (set_value p h' self a) self b = set_value p h' self b) →
  (∀ i j p q, i ≠ j → parameters !! i = Some p → parameters !! j = Some q →
              ∀ h' a b, set_value p (set_value q h' self a) self b
                        = set_value q (set_value p h' self b) self a) →
  length parameters ≤ length x →
  objective_function
    (snd (objective_function h self rays parameters demerits x'))
    self rays parameters demerits x
  = objective_function h self rays parameters demerits x.
Proof.
  intros Hover Hcomm Hlen. rewrite objective_function_state.
  unfold objective_function, enumerate.
  pose proof (write_parameters_any self parameters x 0) as Hw.
  simpl in Hw. rewrite !Hw, !drop_0 by lia.
  rewrite decide_True by lia.
  fold (written_system h self parameters x).
  fold (written_system (written_system h self parameters x') self
                       parameters x).
  by rewrite written_system_overwrites.
Qed.

End ObjectiveHistory.

Lemma curvature_of_overwrites (l : loc) (self : loc) (h : Heap)
      (a b : float) :
  set_value (curvature_of l) (set_value (curvature_of l) h self a) self b
  = set_value (curvature_of l) h self b.
Proof.
  simpl. f_equal. apply functional_extensionality. intros e.
  destruct (decide (l = e)) as [<-|Hne].
  - by rewrite !fn_lookup_alter.
  - by rewrite !fn_lookup_alter_ne.
Qed.

Lemma curvature_of_commutes (l l' : loc) (self : loc) (h : Heap)
      (a b : float) :
  l ≠ l' →
  set_value (curvature_of l) (set_value (curvature_of l') h self a) self b
  = set_value (curvature_of l') (set_value (curvature_of l) h self b) self a.
Proof.
  intros Hll. simpl. f_equal. apply functional_extensionality. intros e.
  destruct (decide (l = e)) as [<-|Hne].
  - rewrite fn_lookup_alter, (fn_lookup_alter_ne _ _ l' l) by done.
    rewrite (fn_lookup_alter_ne _ _ l' l) by done.
    by rewrite fn_lookup_alter.
  - rewrite (fn_lookup_alter_ne _ _ l e) by done.
    destruct (decide (l' = e)) as [<-|Hne'].
    + rewrite !fn_lookup_alter. by rewrite fn_lookup_alter_ne.
    + rewrite !(fn_lookup_alter_ne _ _ l' e) by done.
      by rewrite fn_lookup_alter_ne.
Qed.

Lemma objective_function_history_independent_witness :
  @objective_function drift_layer count_trace
    (snd (@objective_function drift_layer count_trace triplet_heap 0
            [launched_rays] [curvature_of 0; curvature_of 2] [spot_demerit]
            [0.3%float; 0.4%float]))
    0 [launched_rays] [curvature_of 0; curvature_of 2] [spot_demerit]
    [0.1%float; 0.2%float]
  = @objective_function drift_layer count_trace triplet_heap 0
      [launched_rays] [curvature_of 0; curvature_of 2] [spot_demerit]
      [0.1%float; 0.2%float].
Proof.
  apply (@objective_function_history_independent drift_layer count_trace
           triplet_heap 0 [launched_rays] [curvature_of 0; curvature_of 2]
           [spot_demerit] [0.1%float; 0.2%float] [0.3%float; 0.4%float]).
  - intros p Hp h' a b.
    apply elem_of_cons in Hp as [->|Hp];
      [apply curvature_of_overwrites|].
    apply elem_of_cons in Hp as [->|Hp];
      [apply curvature_of_overwrites|by apply elem_of_nil in Hp].
  - intros i j p q Hne Hp Hq h' a b.
    destruct i as [|[|i]], j as [|[|j]]; simpl in Hp, Hq;
      try discriminate; try done;
      injection Hp as <-; injection Hq as <-;
      by apply curvature_of_commutes.
  - simpl. lia.
Defined.

(** ** Demerits that return no array of numbers *)


